(** * Voice2Canvas: the voice-capture session hook

    A shallow embedding of [src/hooks/useSpeechRecognition.ts] (the
    [useSpeechRecognition] hook) and of the error panel of
    [src/components/VoiceRecorder.tsx], followed by the properties of the
    session lifecycle.

    The hook owns four pieces of React state ([isListening], [transcript],
    [confidence], [error]) and one ref ([recognitionRef]).  The platform side
    (the [SpeechRecognition] objects the hook constructs and the
    [MediaStreamTrack]s that [getUserMedia] hands out) is modelled as a small
    store inside [World], so that allocation and aliasing are visible. *)

From Stdlib Require Import String Ascii QArith Bool Lia.
From stdpp Require Import base tactics option list.

Local Open Scope string_scope.

(** ** JavaScript string helpers *)

Module Js.

(** [s.startsWith(n)] *)
Fixpoint startsWith (s n : string) : bool :=
  match n with
  | EmptyString => true
  | String a n' =>
      match s with
      | EmptyString => false
      | String b s' => Ascii.eqb a b && startsWith s' n'
      end
  end.

(** [s.includes(n)]: [n] occurs in [s] at some position. *)
Fixpoint includes (s n : string) : bool :=
  startsWith s n ||
  match s with
  | EmptyString => false
  | String _ s' => includes s' n
  end.

(** Does the character [c] occur in [s]? (proof-side helper) *)
Fixpoint occurs (c : ascii) (s : string) : bool :=
  match s with
  | EmptyString => false
  | String a s' => Ascii.eqb a c || occurs c s'
  end.

(** A thrown value.  Everything the platform and the hook throw is an
    object carrying [name] and [message] ([DOMException], [Error]). *)
Record Error := { name : string; message : string }.

(** [new Error(msg)] *)
Definition newError (msg : string) : Error :=
  {| name := "Error"; message := msg |}.

(** [a || b] on strings: the empty string is falsy. *)
Definition orElse (a b : string) : string :=
  match a with EmptyString => b | _ => a end.

End Js.

(** ** The Web Speech API and media-capture data the hook reads *)

Module SpeechAPI.

(** [result[0]]: the single alternative ([maxAlternatives = 1]). *)
Record Alternative := { transcript : string; confidence : Q }.

Record Result := { isFinal : bool; alt0 : Alternative }.

(** [SpeechRecognitionEvent]: the cumulative [results] list and the index
    of the first result this event changed. *)
Record Event := { resultIndex : nat; results : list Result }.

End SpeechAPI.

(** [MediaStreamTrack.readyState] *)
Inductive ReadyState := Live | Ended.

(** A [SpeechRecognition] object as the hook configures and drives it. *)
Record Recognition := {
  continuous : bool;
  interimResults : bool;
  lang : string;
  maxAlternatives : nat;
  started : bool;        (* [start()] was called on it *)
  stopRequested : bool   (* [stop()] was called on it *)
}.

(** Recognition objects and tracks are identified by their position in the
    store they were allocated in. *)
Definition Handle := nat.
Definition TrackId := nat.

(** ** Hook state and the world around it *)

(** The four [useState] cells. *)
Record HookState := {
  isListening : bool;
  transcript : string;
  confidence : Q;
  error : option string
}.

Record World := {
  state : HookState;
  recognitionRef : option Handle;        (* [recognitionRef.current] *)
  recognitions : list Recognition;       (* every object constructed so far *)
  tracks : list ReadyState;              (* every track handed out so far *)
  pendingStarts : nat                    (* [startListening] calls suspended at [await] *)
}.

(** Initial render: [useState(false)], [useState('')], [useState(0)],
    [useState(null)], [useRef(null)]. *)
Definition initialState : HookState :=
  {| isListening := false; transcript := EmptyString; confidence := 0%Q; error := None |}.

Definition initialWorld : World :=
  {| state := initialState; recognitionRef := None; recognitions := [];
     tracks := []; pendingStarts := 0 |}.

(** *** Setters *)

Definition withState (f : HookState -> HookState) (w : World) : World :=
  {| state := f (state w); recognitionRef := recognitionRef w;
     recognitions := recognitions w; tracks := tracks w;
     pendingStarts := pendingStarts w |}.

Definition setIsListening (b : bool) : World -> World :=
  withState (fun s => {| isListening := b; transcript := transcript s;
                         confidence := confidence s; error := error s |}).

Definition setTranscript (t : string) : World -> World :=
  withState (fun s => {| isListening := isListening s; transcript := t;
                         confidence := confidence s; error := error s |}).

Definition setConfidence (c : Q) : World -> World :=
  withState (fun s => {| isListening := isListening s; transcript := transcript s;
                         confidence := c; error := error s |}).

Definition setError (e : option string) : World -> World :=
  withState (fun s => {| isListening := isListening s; transcript := transcript s;
                         confidence := confidence s; error := e |}).

Definition setRecognitionRef (r : option Handle) (w : World) : World :=
  {| state := state w; recognitionRef := r; recognitions := recognitions w;
     tracks := tracks w; pendingStarts := pendingStarts w |}.

Definition setRecognitions (rs : list Recognition) (w : World) : World :=
  {| state := state w; recognitionRef := recognitionRef w; recognitions := rs;
     tracks := tracks w; pendingStarts := pendingStarts w |}.

Definition setTracks (ts : list ReadyState) (w : World) : World :=
  {| state := state w; recognitionRef := recognitionRef w;
     recognitions := recognitions w; tracks := ts;
     pendingStarts := pendingStarts w |}.

Definition setPendingStarts (n : nat) (w : World) : World :=
  {| state := state w; recognitionRef := recognitionRef w;
     recognitions := recognitions w; tracks := tracks w; pendingStarts := n |}.

(** ** Computations that may throw *)

Inductive Completion (A : Type) :=
| Normal (a : A)
| Throw (e : Js.Error).
Arguments Normal {A} a.
Arguments Throw {A} e.

Definition M (A : Type) : Type := World -> Completion A * World.

Definition ret {A} (a : A) : M A := fun w => (Normal a, w).

Definition throw {A} (e : Js.Error) : M A := fun w => (Throw e, w).

Definition bind {A B} (m : M A) (k : A -> M B) : M B :=
  fun w => match m w with
           | (Normal a, w') => k a w'
           | (Throw e, w') => (Throw e, w')
           end.

(** [try { m } catch (err) { h err }] *)
Definition tryCatch {A} (m : M A) (h : Js.Error -> M A) : M A :=
  fun w => match m w with
           | (Normal a, w') => (Normal a, w')
           | (Throw e, w') => h e w'
           end.

(** A statement that only updates the world. *)
Definition modify (f : World -> World) : M unit := fun w => (Normal tt, f w).

Notation "x <- m ;; k" := (bind m (fun x => k))
  (at level 100, m at next level, right associativity).
Notation "m ;;; k" := (bind m (fun _ => k))
  (at level 100, right associativity).

(** ** What the platform answers during one [startListening] run *)

Inductive GetUserMedia :=
| Granted (ntracks : nat)      (* resolves with a stream of [ntracks] live tracks *)
| Rejected (e : Js.Error).     (* rejects *)

Record Env := {
  hasMediaDevices : bool;          (* [navigator.mediaDevices?.getUserMedia] exists *)
  getUserMedia : GetUserMedia;
  constructThrows : option Js.Error;   (* [new SpeechRecognition()] *)
  startThrows : option Js.Error        (* [recognition.start()] *)
}.

(** ** [checkMicrophonePermission] *)

(** [navigator.mediaDevices.getUserMedia({ audio: true })]: on success the
    stream's tracks are freshly allocated and live. *)
Definition callGetUserMedia (env : Env) : M (list TrackId) :=
  fun w =>
    match getUserMedia env with
    | Granted n =>
        (Normal (seq (length (tracks w)) n),
         setTracks (tracks w ++ replicate n Live) w)
    | Rejected e => (Throw e, w)
    end.

(** [track.stop()] *)
Definition stopTrack (t : TrackId) (w : World) : World :=
  setTracks (<[t := Ended]> (tracks w)) w.

(** [stream.getTracks().forEach(track => track.stop())] *)
Definition stopAllTracks (stream : list TrackId) : M unit :=
  modify (fun w => foldl (fun w t => stopTrack t w) w stream).

Definition permissionMessage (errName : string) : string :=
  if String.eqb errName "NotAllowedError" then
    "Microphone access denied. Please allow microphone access and try again."
  else if String.eqb errName "NotFoundError" then
    "No microphone found. Please connect a microphone and try again."
  else if String.eqb errName "NotSupportedError" then
    "Microphone access is not supported in this browser."
  else
    "Failed to access microphone. Please check your browser settings.".

Definition checkMicrophonePermission (env : Env) : M bool :=
  tryCatch
    (if negb (hasMediaDevices env) then
       throw (Js.newError "Microphone access is not supported in this browser")
     else
       stream <- callGetUserMedia env ;;
       stopAllTracks stream ;;;
       ret true)
    (fun err => throw (Js.newError (permissionMessage (Js.name err)))).

(** ** Recognition callbacks *)

(** The loop of [recognition.onresult]: the running [finalTranscript] and
    [interimTranscript], and the world ([setConfidence] is called inside the
    loop). *)
Definition onresultStep (acc : string * string * World) (result : SpeechAPI.Result)
  : string * string * World :=
  let '(finalTranscript, interimTranscript, w) := acc in
  if SpeechAPI.isFinal result then
    (finalTranscript ++ SpeechAPI.transcript (SpeechAPI.alt0 result),
     interimTranscript,
     setConfidence (SpeechAPI.confidence (SpeechAPI.alt0 result)) w)
  else
    (finalTranscript,
     interimTranscript ++ SpeechAPI.transcript (SpeechAPI.alt0 result),
     w).

(** [for (let i = event.resultIndex; i < event.results.length; i++)] visits
    exactly the results from position [resultIndex] on. *)
Definition onresult (event : SpeechAPI.Event) (w : World) : World :=
  let '(finalTranscript, interimTranscript, w') :=
    foldl onresultStep (EmptyString, EmptyString, w)
          (drop (SpeechAPI.resultIndex event) (SpeechAPI.results event)) in
  setTranscript (finalTranscript ++ interimTranscript) w'.

Definition onstart (w : World) : World :=
  setError None (setIsListening true w).

(** The [switch (event.error)] of [recognition.onerror]. *)
Definition onerrorMessage (code : string) : string :=
  if String.eqb code "not-allowed" then
    "Microphone access denied. Please allow microphone access in your browser settings and try again."
  else if String.eqb code "no-speech" then
    "No speech detected. Please speak clearly and try again."
  else if String.eqb code "audio-capture" then
    "No microphone found. Please connect a microphone and try again."
  else if String.eqb code "network" then
    "Network error occurred. Please check your internet connection."
  else if String.eqb code "service-not-allowed" then
    "Speech recognition service not allowed. Please try again."
  else if String.eqb code "bad-grammar" then
    "Speech recognition grammar error. Please try again."
  else if String.eqb code "language-not-supported" then
    "Language not supported. Please try again."
  else
    "Speech recognition error: " ++ code ++ ". Please try again.".

Definition onerror (code : string) (w : World) : World :=
  setError (Some (onerrorMessage code)) (setIsListening false w).

Definition onend (w : World) : World :=
  setIsListening false w.

(** ** [startListening] *)

Definition gets {A} (f : World -> A) : M A := fun w => (Normal (f w), w).

(** A freshly constructed [SpeechRecognition] (platform defaults). *)
Definition defaultRecognition : Recognition :=
  {| continuous := false; interimResults := false; lang := EmptyString;
     maxAlternatives := 1; started := false; stopRequested := false |}.

(** [new SpeechRecognition()] *)
Definition construct (env : Env) : M Handle :=
  fun w =>
    match constructThrows env with
    | Some e => (Throw e, w)
    | None => (Normal (length (recognitions w)),
               setRecognitions (recognitions w ++ [defaultRecognition]) w)
    end.

Definition updateRecognition (h : Handle) (f : Recognition -> Recognition) : M unit :=
  modify (fun w => setRecognitions (alter f h (recognitions w)) w).

(** [continuous = true; interimResults = true; lang = 'en-US';
    maxAlternatives = 1] *)
Definition configure (r : Recognition) : Recognition :=
  {| continuous := true; interimResults := true; lang := "en-US";
     maxAlternatives := 1; started := started r; stopRequested := stopRequested r |}.

Definition markStarted (r : Recognition) : Recognition :=
  {| continuous := continuous r; interimResults := interimResults r; lang := lang r;
     maxAlternatives := maxAlternatives r; started := true;
     stopRequested := stopRequested r |}.

Definition markStopRequested (r : Recognition) : Recognition :=
  {| continuous := continuous r; interimResults := interimResults r; lang := lang r;
     maxAlternatives := maxAlternatives r; started := started r;
     stopRequested := true |}.

(** [recognition.start()] *)
Definition callStart (env : Env) (h : Handle) : M unit :=
  match startThrows env with
  | Some e => throw e
  | None => updateRecognition h markStarted
  end.

(** [recognition.stop()]: the Web Speech API defines no exception for it. *)
Definition callStop (h : Handle) : M unit :=
  updateRecognition h markStopRequested.

Definition unsupportedMessage : string :=
  "Speech recognition is not supported in this browser. Please use Chrome, Edge, or Safari.".

Definition startFailedMessage : string :=
  "Failed to start speech recognition. Please try again.".

(** The synchronous prefix of [startListening], up to the [await]: the
    result tells whether the call suspended. *)
Definition startListening_enter (isSupported : bool) : M bool :=
  if negb isSupported then
    modify (setError (Some unsupportedMessage)) ;;;
    ret false
  else
    modify (setError None) ;;;
    modify (fun w => setPendingStarts (S (pendingStarts w)) w) ;;;
    ret true.

(** The [try] block after its first statement, run when the permission
    request settles.  The four callbacks are registered on the new object
    between [configure] and the assignment to [recognitionRef.current]; they
    are the functions [onstart], [onresult], [onerror], [onend] above for
    every object. *)
Definition startListening_try (env : Env) : M unit :=
  _ <- checkMicrophonePermission env ;;
  recognition <- construct env ;;
  updateRecognition recognition configure ;;;
  modify (setRecognitionRef (Some recognition)) ;;;
  callStart env recognition.

(** The [catch (err)] block. *)
Definition startListening_catch (err : Js.Error) : M unit :=
  modify (setError (Some (Js.orElse (Js.message err) startFailedMessage))) ;;;
  modify (setIsListening false).

(** The continuation of a suspended call. *)
Definition startListening_resume (env : Env) : M unit :=
  modify (fun w => setPendingStarts (pred (pendingStarts w)) w) ;;;
  tryCatch (startListening_try env) startListening_catch.

(** A whole [startListening()] call with nothing interleaved at the [await]. *)
Definition startListening (isSupported : bool) (env : Env) : M unit :=
  suspended <- startListening_enter isSupported ;;
  if (suspended : bool) then startListening_resume env else ret tt.

(** ** [stopListening] and [resetTranscript] *)

Definition stopListening : M unit :=
  current <- gets recognitionRef ;;
  match current with
  | Some h => callStop h ;;; modify (setRecognitionRef None)
  | None => ret tt
  end ;;;
  modify (setIsListening false).

Definition resetTranscript : M unit :=
  modify (setTranscript EmptyString) ;;;
  modify (setConfidence 0%Q) ;;;
  modify (setError None).

(** ** The event queue *)

Inductive RecEvent :=
| OnStart
| OnResult (event : SpeechAPI.Event)
| OnError (code : string)
| OnEnd.

(** The callback a recognition object runs for an event.  Every object
    carries the same four closures, none of which looks at the object it is
    attached to or at [recognitionRef]. *)
Definition handler (ev : RecEvent) : World -> World :=
  match ev with
  | OnStart => onstart
  | OnResult event => onresult event
  | OnError code => onerror code
  | OnEnd => onend
  end.

(** An event raised by the object [h]; only constructed objects raise events. *)
Definition deliver (h : Handle) (ev : RecEvent) (w : World) : World :=
  match recognitions w !! h with
  | Some _ => handler ev w
  | None => w
  end.

Inductive Action :=
| CallStart                          (* [startListening()] up to its [await] *)
| Settle (env : Env)                 (* the permission request of a suspended call settles *)
| CallStop                           (* [stopListening()] *)
| CallReset                          (* [resetTranscript()] *)
| Deliver (h : Handle) (ev : RecEvent).

Definition exec (isSupported : bool) (w : World) (a : Action) : World :=
  match a with
  | CallStart => snd (startListening_enter isSupported w)
  | Settle env =>
      match pendingStarts w with
      | O => w
      | S _ => snd (startListening_resume env w)
      end
  | CallStop => snd (stopListening w)
  | CallReset => snd (resetTranscript w)
  | Deliver h ev => deliver h ev w
  end.

Definition run (isSupported : bool) (w : World) (actions : list Action) : World :=
  foldl (exec isSupported) w actions.

(** ** The error panel of [VoiceRecorder] *)

Module VoiceRecorder.

(** [error.includes('denied') || error.includes('not-allowed')] *)
Definition isPermissionError (error : string) : bool :=
  Js.includes error "denied" || Js.includes error "not-allowed".

Inductive ErrorButton := ShowPermissionInstructions | TryAgain.

(** The button rendered under the error text. *)
Definition errorButton (error : string) : ErrorButton :=
  if isPermissionError error then ShowPermissionInstructions else TryAgain.

Record Instructions := { browser : string; steps : list string }.

(** The double-quote character of the step texts. *)
Definition dq : string := String (Ascii.ascii_of_nat 34) EmptyString.

Definition getBrowserInstructions (userAgent : string) : Instructions :=
  if Js.includes userAgent "Chrome" then
    {| browser := "Chrome";
       steps := ["Click the microphone icon in the address bar";
                 "Select " ++ dq ++ "Always allow" ++ dq ++ " for microphone access";
                 "Refresh the page and try again"] |}
  else if Js.includes userAgent "Firefox" then
    {| browser := "Firefox";
       steps := ["Click the microphone icon in the address bar";
                 "Select " ++ dq ++ "Allow" ++ dq ++ " for microphone access";
                 "Refresh the page and try again"] |}
  else if Js.includes userAgent "Safari" then
    {| browser := "Safari";
       steps := ["Go to Safari > Settings > Websites > Microphone";
                 "Set this website to " ++ dq ++ "Allow" ++ dq;
                 "Refresh the page and try again"] |}
  else if Js.includes userAgent "Edge" then
    {| browser := "Edge";
       steps := ["Click the microphone icon in the address bar";
                 "Select " ++ dq ++ "Always allow" ++ dq ++ " for microphone access";
                 "Refresh the page and try again"] |}
  else
    {| browser := "your browser";
       steps := ["Look for a microphone icon in your address bar";
                 "Allow microphone access for this website";
                 "Refresh the page and try again"] |}.

(** The "Permission Help" block: rendered when [showPermissionHelp] is set
    and the error text passes the same test. *)
Definition permissionHelp (userAgent : string) (showPermissionHelp : bool)
           (error : option string) : option Instructions :=
  match error with
  | Some e =>
      if showPermissionHelp && isPermissionError e
      then Some (getBrowserInstructions userAgent)
      else None
  | None => None
  end.

End VoiceRecorder.

(** ** Reading the result loop *)

(** The results an event makes the loop visit. *)
Definition batch (event : SpeechAPI.Event) : list SpeechAPI.Result :=
  drop (SpeechAPI.resultIndex event) (SpeechAPI.results event).

Definition text (r : SpeechAPI.Result) : string :=
  SpeechAPI.transcript (SpeechAPI.alt0 r).

(** The texts of the final results of a batch, concatenated in order. *)
Fixpoint finalText (rs : list SpeechAPI.Result) : string :=
  match rs with
  | [] => EmptyString
  | r :: rs' => if SpeechAPI.isFinal r then text r ++ finalText rs' else finalText rs'
  end.

(** The texts of the interim results of a batch, concatenated in order. *)
Fixpoint interimText (rs : list SpeechAPI.Result) : string :=
  match rs with
  | [] => EmptyString
  | r :: rs' => if SpeechAPI.isFinal r then interimText rs' else text r ++ interimText rs'
  end.

(** The confidence of the last final result of a batch, if it has one. *)
Definition lastFinalConfidence (rs : list SpeechAPI.Result) : option Q :=
  foldl (fun acc r => if SpeechAPI.isFinal r
                      then Some (SpeechAPI.confidence (SpeechAPI.alt0 r)) else acc)
        None rs.

Definition batchText (event : SpeechAPI.Event) : string :=
  finalText (batch event) ++ interimText (batch event).

(** The world after the [setConfidence] calls of the loop. *)
Definition confidenceAfter (rs : list SpeechAPI.Result) (w : World) : World :=
  foldl (fun w r => if SpeechAPI.isFinal r
                    then setConfidence (SpeechAPI.confidence (SpeechAPI.alt0 r)) w
                    else w) w rs.

(** ** Reading [startListening] *)

(** The tracks after [track.stop()] was called on each of [ids]. *)
Definition stopTracks (ids : list TrackId) (ts : list ReadyState) : list ReadyState :=
  foldl (fun l t => <[t := Ended]> l) ts ids.

(** The track store after the permission probe. *)
Definition tracksAfterProbe (env : Env) (ts : list ReadyState) : list ReadyState :=
  if hasMediaDevices env then
    match getUserMedia env with
    | Granted n => stopTracks (seq (length ts) n) (ts ++ replicate n Live)
    | Rejected _ => ts
    end
  else ts.

(** The [name] of the error the [catch] of [checkMicrophonePermission]
    sees, when the probe fails. *)
Definition permissionFailure (env : Env) : option string :=
  if hasMediaDevices env then
    match getUserMedia env with
    | Granted _ => None
    | Rejected e => Some (Js.name e)
    end
  else Some "Error".

(** The error the engine throws after a granted permission, if any. *)
Definition engineFailure (env : Env) : option Js.Error :=
  match constructThrows env with
  | Some e => Some e
  | None => startThrows env
  end.

(** The message the [catch] of [startListening] records, if its [try]
    block throws. *)
Definition startFailure (env : Env) : option string :=
  match permissionFailure env with
  | Some n => Some (permissionMessage n)
  | None =>
      match engineFailure env with
      | Some e => Some (Js.orElse (Js.message e) startFailedMessage)
      | None => None
      end
  end.

(** The hook state after the [catch] block recorded [msg]. *)
Definition failedWith (msg : string) (s : HookState) : HookState :=
  {| isListening := false; transcript := transcript s;
     confidence := confidence s; error := Some msg |}.

(** The recognition store after a settled [startListening]. *)
Definition recognitionsAfterStart (env : Env) (rs : list Recognition) : list Recognition :=
  match permissionFailure env, constructThrows env, startThrows env with
  | Some _, _, _ => rs
  | None, Some _, _ => rs
  | None, None, Some _ => rs ++ [configure defaultRecognition]
  | None, None, None => rs ++ [markStarted (configure defaultRecognition)]
  end.

(** [recognitionRef.current] after a settled [startListening]. *)
Definition refAfterStart (env : Env) (w : World) : option Handle :=
  match permissionFailure env, constructThrows env with
  | None, None => Some (length (recognitions w))
  | _, _ => recognitionRef w
  end.

(** The world after a suspended [startListening] call has settled. *)
Definition settledWorld (env : Env) (w : World) : World :=
  {| state := match startFailure env with
              | Some msg => failedWith msg (state w)
              | None => state w
              end;
     recognitionRef := refAfterStart env w;
     recognitions := recognitionsAfterStart env (recognitions w);
     tracks := tracksAfterProbe env (tracks w);
     pendingStarts := pred (pendingStarts w) |}.

(** ** The rules of the specification, for comparison *)

Module Spec.

(** The accumulation rule in the words of the specification: a final
    result appends its text to the finalized prefix and clears the pending
    suffix; an interim result overwrites the pending suffix; the transcript
    is the prefix followed by the suffix. *)
Record Accumulator := { finalizedPrefix : string; pendingSuffix : string }.

Definition receive (a : Accumulator) (r : SpeechAPI.Result) : Accumulator :=
  if SpeechAPI.isFinal r then
    {| finalizedPrefix := finalizedPrefix a ++ text r; pendingSuffix := EmptyString |}
  else
    {| finalizedPrefix := finalizedPrefix a; pendingSuffix := text r |}.

(** The transcript the specification expects after the given events, each
    contributing its batch in arrival order. *)
Definition transcriptP1 (events : list SpeechAPI.Event) : string :=
  let a := foldl receive
                 {| finalizedPrefix := EmptyString; pendingSuffix := EmptyString |}
                 (concat (map batch events)) in
  finalizedPrefix a ++ pendingSuffix a.



(** The kinds a failed permission request is classified as, and the
    platform failure name each one stands for. *)
Module Probe.



End Probe.

End Spec.

(** ** The platform's error codes *)



(** ** Concrete sessions *)

(** Permission granted with a one-track stream; the engine starts. *)
Definition envGranted : Env :=
  {| hasMediaDevices := true; getUserMedia := Granted 1;
     constructThrows := None; startThrows := None |}.

Definition finalResult (t : string) (c : Q) : SpeechAPI.Result :=
  {| SpeechAPI.isFinal := true;
     SpeechAPI.alt0 := {| SpeechAPI.transcript := t; SpeechAPI.confidence := c |} |}.

Definition interimResult (t : string) : SpeechAPI.Result :=
  {| SpeechAPI.isFinal := false;
     SpeechAPI.alt0 := {| SpeechAPI.transcript := t; SpeechAPI.confidence := 0%Q |} |}.

(** A first event carrying one final result. *)
Definition firstEvent : SpeechAPI.Event :=
  {| SpeechAPI.resultIndex := 0;
     SpeechAPI.results := [finalResult "a red sun" (92 # 100)] |}.

(** The next event of the same session: the result list has grown by one
    interim result and [resultIndex] points at it. *)
Definition secondEvent : SpeechAPI.Event :=
  {| SpeechAPI.resultIndex := 1;
     SpeechAPI.results := [finalResult "a red sun" (92 # 100);
                           interimResult "over the sea"] |}.

(** [startListening()] granted, then the engine reports it started. *)
Definition listeningWorld : World :=
  run true initialWorld [CallStart; Settle envGranted; Deliver 0 OnStart].

(** The user dismisses the permission prompt. *)
Definition envDenied : Env :=
  {| hasMediaDevices := true;
     getUserMedia := Rejected {| Js.name := "NotAllowedError";
                                 Js.message := "Permission denied" |};
     constructThrows := None; startThrows := None |}.

(** Two tracks handed out while another page component holds a live one. *)
Definition envTwoTracks : Env :=
  {| hasMediaDevices := true; getUserMedia := Granted 2;
     constructThrows := None; startThrows := None |}.

Definition worldWithLiveTrack : World :=
  setTracks [Live] initialWorld.

(** A session stopped by the user and started again: object 0 is the old
    recognition, object 1 the active one. *)
Definition restartedWorld : World :=
  run true initialWorld
      [CallStart; Settle envGranted; Deliver 0 OnStart; CallStop;
       CallStart; Settle envGranted; Deliver 1 OnStart].

(** ** Tactics *)

(** Case analysis along a [switch] on the code [c]. *)
Ltac by_code c :=
  repeat match goal with
         | |- context [String.eqb c ?k] =>
             destruct (String.eqb_spec c k) as [-> | ?]
         end.

(** ** The [VoiceRecorder] component around the hook *)

Module Component.

(** The component's own state: the hook it mounts and the
    [showPermissionHelp] cell. *)
Record State := { hook : World; showPermissionHelp : bool }.

Definition initial : State :=
  {| hook := initialWorld; showPermissionHelp := false |}.

(** Runs a hook command inside the component. *)
Definition onHook (m : M unit) (c : State) : Completion unit * State :=
  let '(r, w) := m (hook c) in
  (r, {| hook := w; showPermissionHelp := showPermissionHelp c |}).

(** [handleToggleRecording]: stop when the rendered [isListening] is set,
    start (and await the call) otherwise. *)
Definition handleToggleRecording (isSupported : bool) (env : Env) (c : State)
  : Completion unit * State :=
  if isListening (state (hook c))
  then onHook stopListening c
  else onHook (startListening isSupported env) c.

(** [handleRetry]: [resetTranscript()] then [setShowPermissionHelp(false)]. *)
Definition handleRetry (c : State) : Completion unit * State :=
  let '(r, w) := resetTranscript (hook c) in
  (r, {| hook := w; showPermissionHelp := false |}).

(** The click handler of the "Show permission instructions" button. *)
Definition togglePermissionHelp (c : State) : State :=
  {| hook := hook c; showPermissionHelp := negb (showPermissionHelp c) |}.

(** [error && ...] and [transcript && ...]: null and the empty string are
    both falsy. *)
Definition truthy (s : option string) : option string :=
  match s with
  | Some EmptyString => None
  | other => other
  end.

Record ErrorPanel := {
  message : string;
  button : VoiceRecorder.ErrorButton;
  help : option VoiceRecorder.Instructions
}.

Record TranscriptBox := {
  spoken : string;
  showsConfidence : bool      (* [confidence > 0 && ...] *)
}.

Inductive View :=
| NotSupported                          (* the early [return] for [!isSupported] *)
| Recorder (errorPanel : option ErrorPanel)
           (ariaLabel : string)
           (statusText : string)
           (transcriptBox : option TranscriptBox).

(** What the component renders. *)
Definition render (isSupported : bool) (userAgent : string) (c : State) : View :=
  if negb isSupported then NotSupported
  else
    let s := state (hook c) in
    Recorder
      (match truthy (error s) with
       | Some e =>
           Some {| message := e;
                   button := VoiceRecorder.errorButton e;
                   help := VoiceRecorder.permissionHelp userAgent
                             (showPermissionHelp c) (Some e) |}
       | None => None
       end)
      (if isListening s then "Stop recording" else "Start recording")
      (if isListening s then "Listening..." else "Click the microphone to start recording")
      (match truthy (Some (transcript s)) with
       | Some t => Some {| spoken := t;
                           showsConfidence := negb (Qle_bool (confidence s) 0) |}
       | None => None
       end).

End Component.

(** ** Reading histories *)

(** The batch an event of the queue contributes to the result loop. *)
Definition batchOf (ev : RecEvent) : list SpeechAPI.Result :=
  match ev with
  | OnResult event => batch event
  | _ => []
  end.

(** The texts of a batch, in order. *)
Fixpoint allText (rs : list SpeechAPI.Result) : string :=
  match rs with
  | [] => EmptyString
  | r :: rs' => text r ++ allText rs'
  end.

(** How the hook leaves a recognition object it constructed. *)
Definition configured (r : Recognition) : Prop :=
  continuous r = true /\ interimResults r = true /\
  lang r = "en-US" /\ maxAlternatives r = 1.

(** The current object exists and has not been asked to stop. *)
Definition currentValid (w : World) : Prop :=
  forall h : Handle, recognitionRef w = Some h ->
    exists r, recognitions w !! h = Some r /\ stopRequested r = false.

(** Every recorded error has a text. *)
Definition errorHasText (w : World) : Prop :=
  forall msg, error (state w) = Some msg -> msg <> EmptyString.

(** The actions that can change transcript or confidence: a result event
    and [resetTranscript]. *)
Definition rewritesTranscript (a : Action) : bool :=
  match a with
  | CallReset | Deliver _ (OnResult _) => true
  | _ => false
  end.

Definition isSettle (a : Action) : bool :=
  match a with
  | Settle _ => true
  | _ => false
  end.

(** A permission request that is granted while the engine refuses to start. *)
Definition envStartThrows : Env :=
  {| hasMediaDevices := true; getUserMedia := Granted 1;
     constructThrows := None;
     startThrows := Some {| Js.name := "InvalidStateError";
                            Js.message := "recognition has already started" |} |}.

(** ** The profile service ([src/lib/profile-service.ts]) *)

From Stdlib Require Import NArith DecimalString.

Module ProfileService.

(** [s.split(sep)] for a one-character separator: never an empty list. *)
Fixpoint split (sep : ascii) (s : string) : list string :=
  match s with
  | EmptyString => [EmptyString]
  | String c s' =>
      if Ascii.eqb c sep then EmptyString :: split sep s'
      else match split sep s' with
           | seg :: rest => String c seg :: rest
           | [] => [String c EmptyString]
           end
  end.

(** [xs.pop()]: the last element, [undefined] on an empty array. *)
Definition pop (xs : list string) : option string := last xs.

(** A value inside a template literal. *)
Definition interpolate (v : option string) : string :=
  match v with
  | Some s => s
  | None => "undefined"
  end.

(** [`${n}`] for a non-negative integer. *)
Definition showNumber (n : N) : string := NilZero.string_of_uint (N.to_uint n).

(** [x || null] on an optional text: undefined, null and the empty string
    all give null. *)
Definition orNull (x : option string) : option string :=
  match x with
  | Some EmptyString => None
  | other => other
  end.

(** The browser's [File], as far as the code reads it. *)
Record File := { fileName : string; fileType : string; fileSize : N }.

(** The [profiles] row type [UserProfile]. *)
Record UserProfile := {
  id : string;
  username : option string;
  full_name : option string;
  bio : option string;
  avatar_url : option string;
  is_public_profile : bool;
  created_at : string;
  updated_at : string
}.

(** [UpdateProfileData]: every field optional. *)
Record UpdateProfileData := {
  new_username : option string;
  new_full_name : option string;
  new_bio : option string;
  new_avatar_url : option string;
  new_is_public_profile : option bool
}.

(** The object [createProfile] inserts. *)
Record ProfileData := {
  row_id : string;
  row_username : option string;
  row_full_name : option string;
  row_bio : option string;
  row_avatar_url : option string;
  row_is_public_profile : bool
}.

(** What [x || null] must do to an optional text: nothing and the empty
    text become null, any other text is kept. *)
Definition storedOrNull (input output : option string) : Prop :=
  (input = None \/ input = Some EmptyString -> output = None) /\
  (forall c s, input = Some (String c s) -> output = Some (String c s)).

(** [profileData] of [createProfile]; the [email] argument is not read. *)
Definition profileData (userId email : string) (data : UpdateProfileData)
  : ProfileData :=
  {| row_id := userId;
     row_username := orNull (new_username data);
     row_full_name := orNull (new_full_name data);
     row_bio := orNull (new_bio data);
     row_avatar_url := orNull (new_avatar_url data);
     row_is_public_profile := default true (new_is_public_profile data) |}.

(** A [{ data, error }] answer of the database client; [error] carries its
    [code] and [message]. *)
Record DbError := { code : string; errorMessage : string }.
Record DbAnswer := { data : option UserProfile; dbError : option DbError }.

(** What the storage and database clients answer during one call. *)
Record Backend := {
  listBuckets : option (list string);    (* [data]: the bucket names, or null *)
  createBucket : option string;          (* [error.message], if any *)
  upload : option string;                (* [error.message], if any *)
  publicUrl : option string;             (* [data?.publicUrl] *)
  updateAnswer : DbAnswer                (* [.update(...).select().single()] *)
}.

(** The requests sent to the backend, in order. *)
Inductive Call :=
| ListBuckets
| CreateBucket (bucket : string)
| Upload (bucket path : string)
| GetPublicUrl (bucket path : string)
| UpdateRow (userId : string) (patch : UpdateProfileData).

(** [getProfile]: code PGRST116 means "no such row". *)
Definition getProfile (answer : DbAnswer) : Completion (option UserProfile) :=
  match dbError answer with
  | Some e =>
      if String.eqb (code e) "PGRST116" then Normal None
      else Throw (Js.newError ("Failed to fetch profile: " ++ errorMessage e))
  | None => Normal (data answer)
  end.

(** [updateProfile] *)
Definition updateProfile (userId : string) (patch : UpdateProfileData) (b : Backend)
  : Completion (option UserProfile) * list Call :=
  (match dbError (updateAnswer b) with
   | Some e => Throw (Js.newError ("Failed to update profile: " ++ errorMessage e))
   | None => Normal (data (updateAnswer b))
   end,
   [UpdateRow userId patch]).

(** [`${userId}-${Date.now()}.${fileExt}`] *)
Definition avatarPath (userId : string) (now : N) (file : File) : string :=
  let fileExt := pop (split "." (fileName file)) in
  userId ++ "-" ++ showNumber now ++ "." ++ interpolate fileExt.

(** [uploadAvatar] of [src/lib/profile-service.ts], the module the profile
    page imports: it uploads directly (the bucket is expected to exist); its
    [catch] rethrows what it caught. *)
Definition uploadAvatar (userId : string) (now : N) (file : File) (b : Backend)
  : Completion string * list Call :=
  let fileName := avatarPath userId now file in
  match upload b with
  | Some msg =>
      (Throw (Js.newError ("Upload failed: " ++ msg)),
       [Upload "avatars" fileName])
  | None =>
      let calls := [Upload "avatars" fileName; GetPublicUrl "avatars" fileName] in
      match orNull (publicUrl b) with
      | Some url => (Normal url, calls)
      | None =>
          (Throw (Js.newError "Failed to get public URL for uploaded image"), calls)
      end
  end.

(** The other revision of [uploadAvatar], in [src/unnamed/part_000]: it
    first makes sure the avatars bucket exists; its [catch] rethrows what it
    caught. *)
Definition uploadAvatarEnsuringBucket (userId : string) (now : N) (file : File) (b : Backend)
  : Completion string * list Call :=
  let filePath := avatarPath userId now file in
  let avatarBucket :=
    match listBuckets b with
    | Some buckets => List.find (fun name => String.eqb name "avatars") buckets
    | None => None
    end in
  let '(created, calls) :=
    match avatarBucket with
    | Some _ => (None, [ListBuckets])
    | None => (createBucket b, [ListBuckets; CreateBucket "avatars"])
    end in
  match created with
  | Some msg =>
      (Throw (Js.newError ("Failed to create storage bucket: " ++ msg)), calls)
  | None =>
      match upload b with
      | Some msg =>
          (Throw (Js.newError ("Upload failed: " ++ msg)),
           (calls ++ [Upload "avatars" filePath])%list)
      | None =>
          let calls' :=
            (calls ++ [Upload "avatars" filePath; GetPublicUrl "avatars" filePath])%list in
          match orNull (publicUrl b) with
          | Some url => (Normal url, calls')
          | None =>
              (Throw (Js.newError "Failed to get public URL for uploaded image"),
               calls')
          end
      end
  end.

(** The part of the profile page's state that [handleFileChange] touches. *)
Record Page := {
  profile : option UserProfile;
  isUploadingAvatar : bool;
  pageError : option string
}.

(** [5 * 1024 * 1024] *)
Definition maxAvatarSize : N := 5 * 1024 * 1024.

Definition avatarPatch (url : string) : UpdateProfileData :=
  {| new_username := None; new_full_name := None; new_bio := None;
     new_avatar_url := Some url; new_is_public_profile := None |}.

(** [handleFileChange] of the profile page that uses the service. *)
Definition handleFileChange
           (file : option File) (user : option string) (now : N) (b : Backend)
           (p : Page) : Page * list Call :=
  match file, user, profile p with
  | Some f, Some userId, Some _ =>
      if negb (Js.startsWith (fileType f) "image/") then
        ({| profile := profile p; isUploadingAvatar := isUploadingAvatar p;
            pageError := Some "Please select an image file" |}, [])
      else if (maxAvatarSize <? fileSize f)%N then
        ({| profile := profile p; isUploadingAvatar := isUploadingAvatar p;
            pageError := Some "File size must be less than 5MB" |}, [])
      else
        let failed (err : Js.Error) :=
          {| profile := profile p; isUploadingAvatar := false;
             pageError := Some (Js.orElse (Js.message err) "Failed to upload avatar") |} in
        match uploadAvatar userId now f b with
        | (Throw err, calls) => (failed err, calls)
        | (Normal avatarUrl, calls) =>
            match updateProfile userId (avatarPatch avatarUrl) b with
            | (Throw err, calls') => (failed err, (calls ++ calls')%list)
            | (Normal updatedProfile, calls') =>
                ({| profile := updatedProfile; isUploadingAvatar := false;
                    pageError := None |}, (calls ++ calls')%list)
            end
        end
  | _, _, _ => (p, [])
  end.

End ProfileService.

(** * Properties *)

(** ** Strings *)

Lemma append_assoc (a b c : string) : (a ++ b) ++ c = a ++ (b ++ c).
Proof. induction a as [|x a IH]; simpl; [reflexivity | now rewrite IH]. Qed.

Lemma append_empty_r (a : string) : a ++ EmptyString = a.
Proof. induction a as [|x a IH]; simpl; [reflexivity | now rewrite IH]. Qed.



(** ** The result loop *)

Lemma onresultStep_eq f i w r :
  onresultStep (f, i, w) r
  = if SpeechAPI.isFinal r
    then (f ++ text r, i, setConfidence (SpeechAPI.confidence (SpeechAPI.alt0 r)) w)
    else (f, i ++ text r, w).
Proof. reflexivity. Qed.

Lemma onresult_loop rs : forall f i w,
  foldl onresultStep (f, i, w) rs
  = (f ++ finalText rs, i ++ interimText rs, confidenceAfter rs w).
Proof.
  induction rs as [|r rs IH]; intros f i w; cbn [foldl finalText interimText].
  - now rewrite !append_empty_r.
  - rewrite onresultStep_eq.
    change (confidenceAfter (r :: rs) w)
      with (confidenceAfter rs
              (if SpeechAPI.isFinal r
               then setConfidence (SpeechAPI.confidence (SpeechAPI.alt0 r)) w else w)).
    destruct (SpeechAPI.isFinal r).
    + rewrite IH, append_assoc. reflexivity.
    + rewrite IH, append_assoc. reflexivity.
Qed.

Lemma confidenceAfter_frame rs : forall w,
  isListening (state (confidenceAfter rs w)) = isListening (state w) /\
  transcript (state (confidenceAfter rs w)) = transcript (state w) /\
  error (state (confidenceAfter rs w)) = error (state w) /\
  recognitionRef (confidenceAfter rs w) = recognitionRef w /\
  recognitions (confidenceAfter rs w) = recognitions w /\
  tracks (confidenceAfter rs w) = tracks w /\
  pendingStarts (confidenceAfter rs w) = pendingStarts w.
Proof.
  induction rs as [|r rs IH]; intros w; simpl; [repeat split |].
  destruct (SpeechAPI.isFinal r); [|apply IH].
  destruct (IH (setConfidence (SpeechAPI.confidence (SpeechAPI.alt0 r)) w))
    as (-> & -> & -> & -> & -> & -> & ->).
  repeat split.
Qed.

Lemma confidenceAfter_confidence rs w :
  confidence (state (confidenceAfter rs w))
  = default (confidence (state w)) (lastFinalConfidence rs).
Proof.
  induction rs as [|r rs IH] using rev_ind; [reflexivity |].
  unfold confidenceAfter, lastFinalConfidence in *.
  rewrite !foldl_app. cbn [foldl].
  destruct (SpeechAPI.isFinal r); [reflexivity | exact IH].
Qed.

Lemma onresult_spec event w :
  onresult event w
  = setTranscript (batchText event) (confidenceAfter (batch event) w).
Proof.
  unfold onresult, batchText. fold (batch event).
  now rewrite onresult_loop.
Qed.

Lemma onresult_transcript event w :
  transcript (state (onresult event w)) = batchText event.
Proof. now rewrite onresult_spec. Qed.

(** ** C1: what the transcript holds after recognition events *)

(** C1, as the claim states it, fails: after a first event with the final
    result "a red sun" and a second event whose batch is the interim result
    "over the sea", the hook's transcript is "over the sea" alone, while the
    accumulated transcript of the claim is "a red sun" followed by
    "over the sea". *)
Lemma transcript_accumulation_counterexample :
  let w := run true listeningWorld
               [Deliver 0 (OnResult firstEvent); Deliver 0 (OnResult secondEvent)] in
  transcript (state w) = "over the sea" /\
  Spec.transcriptP1 [firstEvent; secondEvent] = "a red sunover the sea" /\
  transcript (state w) <> Spec.transcriptP1 [firstEvent; secondEvent].
Proof. repeat split. discriminate. Qed.

(** C1 (amended): the transcript is empty before any event, and after every
    sequence of recognition events it equals the concatenation of the texts
    of the final results of the most recent event's batch (its results from
    [resultIndex] on) followed by the concatenation of the texts of that
    batch's interim results; with no event it is what it was. *)
Theorem transcript_after_results (events : list SpeechAPI.Event) (w : World) :
  transcript (state initialWorld) = EmptyString /\
  transcript (state (foldl (fun w e => handler (OnResult e) w) w events))
  = match last events with
    | Some e => finalText (batch e) ++ interimText (batch e)
    | None => transcript (state w)
    end.
Proof.
  split; [reflexivity |].
  induction events as [|e events _] using rev_ind; [reflexivity |].
  rewrite foldl_app, last_snoc. cbn [foldl handler].
  apply onresult_transcript.
Qed.

(** ** The permission probe *)

Lemma setTracks_id w : setTracks (tracks w) w = w.
Proof. now destruct w. Qed.

Lemma stopAll_world ids : forall w,
  foldl (fun w t => stopTrack t w) w ids = setTracks (stopTracks ids (tracks w)) w.
Proof.
  induction ids as [|t ids IH]; intros w; cbn [foldl].
  - symmetry. apply setTracks_id.
  - rewrite IH. reflexivity.
Qed.

Lemma checkMicrophonePermission_eq env w :
  checkMicrophonePermission env w
  = (match permissionFailure env with
     | Some n => Throw (Js.newError (permissionMessage n))
     | None => Normal true
     end,
     setTracks (tracksAfterProbe env (tracks w)) w).
Proof.
  unfold checkMicrophonePermission, permissionFailure, tracksAfterProbe, tryCatch.
  destruct (hasMediaDevices env); cbn.
  - unfold bind, callGetUserMedia.
    destruct (getUserMedia env) as [n|e]; cbn.
    + rewrite stopAll_world. reflexivity.
    + now rewrite setTracks_id.
  - now rewrite setTracks_id.
Qed.

Lemma length_stopTracks ids : forall ts, length (stopTracks ids ts) = length ts.
Proof.
  induction ids as [|a ids IH]; intros ts; cbn; [reflexivity |].
  fold (stopTracks ids (<[a:=Ended]> ts)). now rewrite IH, length_insert.
Qed.

Lemma stopTracks_other ids : forall (ts : list ReadyState) (t : TrackId),
  t ∉ ids -> stopTracks ids ts !! t = ts !! t.
Proof.
  induction ids as [|a ids IH]; intros ts t Hin; cbn; [reflexivity |].
  fold (stopTracks ids (<[a:=Ended]> ts)).
  apply not_elem_of_cons in Hin as [Hne Hin].
  rewrite IH by exact Hin. now apply list_lookup_insert_ne.
Qed.

Lemma stopTracks_stopped ids : forall (ts : list ReadyState) (t : TrackId),
  t ∈ ids -> t < length ts -> stopTracks ids ts !! t = Some Ended.
Proof.
  induction ids as [|a ids IH]; intros ts t Hin Hlt; [now apply elem_of_nil in Hin |].
  cbn. fold (stopTracks ids (<[a:=Ended]> ts)).
  destruct (decide (t ∈ ids)) as [Hids | Hids].
  - apply IH; [exact Hids | now rewrite length_insert].
  - apply elem_of_cons in Hin as [-> | Hin]; [| contradiction].
    rewrite stopTracks_other by exact Hids.
    now apply list_lookup_insert_eq.
Qed.

Lemma tracksAfterProbe_spec env (ts : list ReadyState) :
  length ts <= length (tracksAfterProbe env ts) /\
  (forall t : TrackId, t < length ts -> tracksAfterProbe env ts !! t = ts !! t) /\
  (forall t : TrackId, length ts <= t -> t < length (tracksAfterProbe env ts) ->
             tracksAfterProbe env ts !! t = Some Ended).
Proof.
  unfold tracksAfterProbe.
  destruct (hasMediaDevices env); [| repeat split; intros; lia].
  destruct (getUserMedia env) as [n|e]; [| repeat split; intros; lia].
  rewrite length_stopTracks, length_app, length_replicate.
  split; [lia |]. split.
  - intros t Hlt. rewrite stopTracks_other.
    + now apply lookup_app_l.
    + rewrite elem_of_seq. lia.
  - intros t Hge Hlt. apply stopTracks_stopped.
    + rewrite elem_of_seq. lia.
    + rewrite length_app, length_replicate. lia.
Qed.

(** ** C8: the probe releases what it acquired *)

(** C8: whatever the platform answers, when [checkMicrophonePermission]
    returns (normally or by throwing) every track the probe acquired has
    been stopped, and the tracks that existed before are untouched; so no
    track is live that was not live before the call. *)
Theorem probe_releases_tracks (env : Env) (w : World) :
  let w' := snd (checkMicrophonePermission env w) in
  (forall t : TrackId, length (tracks w) <= t -> t < length (tracks w') ->
             tracks w' !! t = Some Ended) /\
  (forall t : TrackId, t < length (tracks w) -> tracks w' !! t = tracks w !! t) /\
  (forall t : TrackId, tracks w' !! t = Some Live -> tracks w !! t = Some Live).
Proof.
  cbn zeta. rewrite checkMicrophonePermission_eq. cbn [snd tracks setTracks].
  destruct (tracksAfterProbe_spec env (tracks w)) as (Hlen & Hold & Hnew).
  split; [exact Hnew |]. split; [exact Hold |].
  intros t Hlive.
  destruct (decide (t < length (tracks w))) as [Hlt | Hge].
  - now rewrite <- Hold.
  - apply lookup_lt_Some in Hlive as Hlt'.
    rewrite Hnew in Hlive by lia. discriminate.
Qed.

(** Track 1 is acquired by the probe and is ended when it returns. *)
Lemma probe_releases_tracks_witness :
  tracks (snd (checkMicrophonePermission envTwoTracks worldWithLiveTrack)) !! 1
  = Some Ended.
Proof.
  apply (proj1 (probe_releases_tracks envTwoTracks worldWithLiveTrack));
    vm_compute; lia.
Defined.

(** ** [startListening], phase by phase *)

Lemma permissionMessage_orElse n d :
  Js.orElse (permissionMessage n) d = permissionMessage n.
Proof.
  unfold permissionMessage.
  repeat match goal with |- context [String.eqb ?a ?b] => destruct (String.eqb a b) end;
    reflexivity.
Qed.

Lemma alter_fresh {A} (f : A -> A) (l : list A) (d : A) :
  alter f (length l) (l ++ [d])%list = (l ++ [f d])%list.
Proof.
  replace (length l) with (length l + 0) at 1 by lia.
  now rewrite alter_app_r.
Qed.

Lemma startListening_resume_eq env w :
  startListening_resume env w = (Normal tt, settledWorld env w).
Proof.
  unfold startListening_resume, settledWorld, startFailure, engineFailure,
    refAfterStart, recognitionsAfterStart.
  unfold bind at 1. unfold modify at 1.
  unfold tryCatch, startListening_try, startListening_catch. unfold bind at 1.
  rewrite checkMicrophonePermission_eq.
  destruct (permissionFailure env) as [n|]; cbn.
  - rewrite permissionMessage_orElse. reflexivity.
  - unfold bind, construct. cbn.
    destruct (constructThrows env) as [e|]; cbn; [reflexivity |].
    rewrite alter_fresh.
    unfold callStart. destruct (startThrows env) as [e|]; cbn.
    + reflexivity.
    + rewrite alter_fresh. reflexivity.
Qed.

Lemma startListening_enter_eq isSupported w :
  startListening_enter isSupported w
  = if isSupported
    then (Normal true, setPendingStarts (S (pendingStarts w)) (setError None w))
    else (Normal false, setError (Some unsupportedMessage) w).
Proof. now destruct isSupported. Qed.

Lemma startListening_eq isSupported env w :
  startListening isSupported env w
  = if isSupported
    then (Normal tt,
          settledWorld env (setPendingStarts (S (pendingStarts w)) (setError None w)))
    else (Normal tt, setError (Some unsupportedMessage) w).
Proof.
  unfold startListening, bind. rewrite startListening_enter_eq.
  destruct isSupported; [apply startListening_resume_eq | reflexivity].
Qed.

Lemma stopListening_eq w :
  stopListening w
  = (Normal tt,
     setIsListening false
       match recognitionRef w with
       | Some h => setRecognitionRef None
                     (setRecognitions (alter markStopRequested h (recognitions w)) w)
       | None => w
       end).
Proof.
  unfold stopListening, bind, gets. cbn.
  destruct (recognitionRef w); reflexivity.
Qed.

(** ** C7: [resetTranscript] *)

(** C7: from every prior state, [resetTranscript] returns normally having set
    the transcript to the empty string, the confidence to zero and the error
    to none; the listening flag, the stored handle and the platform stores
    are unchanged. *)
Theorem resetTranscript_clears (w : World) :
  let w' := snd (resetTranscript w) in
  fst (resetTranscript w) = Normal tt /\
  transcript (state w') = EmptyString /\
  confidence (state w') = 0%Q /\
  error (state w') = None /\
  isListening (state w') = isListening (state w) /\
  recognitionRef w' = recognitionRef w /\
  recognitions w' = recognitions w /\
  tracks w' = tracks w /\
  pendingStarts w' = pendingStarts w.
Proof. repeat split. Qed.

(** ** C9: [stopListening] *)

(** C9: from every prior state (listening or not, with or without a recorded
    error, with or without a stored handle), after [stopListening] returns
    the listening flag is false and [recognitionRef.current] is null, while
    transcript, confidence and error are unchanged; the object that was
    stored, if any, has received [stop()]. *)
Theorem stopListening_clears_handle (w : World) :
  let w' := snd (stopListening w) in
  fst (stopListening w) = Normal tt /\
  isListening (state w') = false /\
  recognitionRef w' = None /\
  transcript (state w') = transcript (state w) /\
  confidence (state w') = confidence (state w) /\
  error (state w') = error (state w) /\
  recognitions w'
  = match recognitionRef w with
    | Some h => alter markStopRequested h (recognitions w)
    | None => recognitions w
    end.
Proof.
  cbn zeta. rewrite stopListening_eq. cbn [fst snd].
  destruct (recognitionRef w) eqn:Href; repeat split.
  exact Href.
Qed.

(** ** C6: failures are reported, not thrown *)



(** ** C10: a new attempt starts from a clean error *)

(** C10: in a supported environment, [startListening] has set [error] to
    null by the time it suspends at the permission request (and has touched
    nothing else of the hook state); when the request settles with nothing in
    between, [error] is null if the attempt succeeded and this attempt's own
    failure message otherwise; and the error recorded before the call has no
    influence on the world the call ends in. *)
Theorem start_clears_previous_error (env : Env) (w : World) (previous : option string) :
  fst (startListening_enter true w) = Normal true /\
  error (state (snd (startListening_enter true w))) = None /\
  isListening (state (snd (startListening_enter true w))) = isListening (state w) /\
  transcript (state (snd (startListening_enter true w))) = transcript (state w) /\
  confidence (state (snd (startListening_enter true w))) = confidence (state w) /\
  error (state (snd (startListening true env w))) = startFailure env /\
  snd (startListening true env (setError previous w)) = snd (startListening true env w).
Proof.
  rewrite !startListening_eq, startListening_enter_eq. cbn [fst snd].
  repeat split.
  unfold settledWorld. cbn. now destruct (startFailure env).
Qed.

(** ** Steps of the event queue *)

Lemma handler_frame ev w :
  recognitionRef (handler ev w) = recognitionRef w /\
  recognitions (handler ev w) = recognitions w /\
  tracks (handler ev w) = tracks w /\
  pendingStarts (handler ev w) = pendingStarts w.
Proof.
  destruct ev as [|event|code|]; cbn [handler]; try (repeat split; fail).
  rewrite onresult_spec.
  destruct (confidenceAfter_frame (batch event) w) as (_ & _ & _ & H1 & H2 & H3 & H4).
  cbn. auto.
Qed.

Lemma handler_isListening ev w :
  isListening (state (handler ev w))
  = match ev with
    | OnStart => true
    | OnResult _ => isListening (state w)
    | OnError _ | OnEnd => false
    end.
Proof.
  destruct ev as [|event|code|]; cbn [handler]; try reflexivity.
  rewrite onresult_spec.
  destruct (confidenceAfter_frame (batch event) w) as (H & _). exact H.
Qed.

Lemma handler_error ev w :
  error (state (handler ev w))
  = match ev with
    | OnStart => None
    | OnError code => Some (onerrorMessage code)
    | OnResult _ | OnEnd => error (state w)
    end.
Proof.
  destruct ev as [|event|code|]; cbn [handler]; try reflexivity.
  rewrite onresult_spec.
  destruct (confidenceAfter_frame (batch event) w) as (_ & _ & H & _). exact H.
Qed.





Lemma run_snoc isSupported w actions a :
  run isSupported w (actions ++ [a])%list
  = exec isSupported (run isSupported w actions) a.
Proof. unfold run. now rewrite foldl_app. Qed.


(** ** C5: no listening without permission *)




(** ** C2: [startListening] while listening *)

Lemma exec_listening_no_error w a :
  (isListening (state w) = true -> error (state w) = None) ->
  isListening (state (exec true w a)) = true ->
  error (state (exec true w a)) = None.
Proof.
  intros Hinv. destruct a as [| env | | | h ev]; cbn [exec].
  - reflexivity.
  - destruct (pendingStarts w); [exact Hinv |].
    rewrite startListening_resume_eq. unfold settledWorld. cbn.
    destruct (startFailure env); [discriminate | exact Hinv].
  - rewrite stopListening_eq. discriminate.
  - reflexivity.
  - unfold deliver. destruct (recognitions w !! h); [| exact Hinv].
    rewrite handler_isListening, handler_error.
    destruct ev; auto; discriminate.
Qed.

(** In a supported environment a listening hook carries no error. *)
Lemma listening_no_error actions :
  isListening (state (run true initialWorld actions)) = true ->
  error (state (run true initialWorld actions)) = None.
Proof.
  induction actions as [|a actions IH] using rev_ind; [reflexivity |].
  rewrite run_snoc. now apply exec_listening_no_error.
Qed.

(** C2, as the claim states it, fails: in the listening state reached by a
    granted start and [onstart], a further [startListening] constructs a
    second recognition object and stores it in place of the first; and when
    its permission request is denied it turns listening off and records an
    error. *)
Lemma start_while_listening_counterexample :
  isListening (state listeningWorld) = true /\
  length (recognitions listeningWorld) = 1 /\
  recognitionRef listeningWorld = Some 0 /\
  length (recognitions (snd (startListening true envGranted listeningWorld))) = 2 /\
  recognitionRef (snd (startListening true envGranted listeningWorld)) = Some 1 /\
  isListening (state (snd (startListening true envDenied listeningWorld))) = false /\
  error (state listeningWorld) = None /\
  error (state (snd (startListening true envDenied listeningWorld)))
  = Some "Microphone access denied. Please allow microphone access and try again.".
Proof. repeat split. Qed.

(** C2 (amended): [startListening] has no guard on the listening flag.  In a
    supported environment, in every listening state the hook can reach, a
    [startListening] call whose permission request and engine start succeed
    leaves the hook state (listening flag, transcript, confidence, error)
    unchanged but constructs and starts a new recognition object and stores
    it as the current one; a call whose [try] block fails turns the listening
    flag off and records the failure message. *)
Theorem start_while_listening (actions : list Action) (env : Env) :
  let w := run true initialWorld actions in
  let w' := snd (startListening true env w) in
  isListening (state w) = true ->
  (startFailure env = None ->
   state w' = state w /\
   recognitions w'
   = (recognitions w ++ [markStarted (configure defaultRecognition)])%list /\
   recognitionRef w' = Some (length (recognitions w))) /\
  (forall msg, startFailure env = Some msg ->
               state w' = failedWith msg (state w) /\
               isListening (state w') = false).
Proof.
  cbn zeta. intros Hon. apply listening_no_error in Hon as Herr.
  rewrite startListening_eq. cbn [snd]. split.
  - intros Hok. unfold settledWorld. rewrite Hok. cbn.
    unfold startFailure, engineFailure in Hok.
    unfold recognitionsAfterStart, refAfterStart.
    destruct (permissionFailure env); [discriminate |].
    destruct (constructThrows env); [discriminate |].
    destruct (startThrows env); [discriminate |].
    repeat split.
    destruct (state (run true initialWorld actions)) as [l t c e].
    cbn in *. now subst e.
  - intros msg Hfail. unfold settledWorld. rewrite Hfail. cbn. auto.
Qed.

(** In the listening world of the counterexample, a second granted start
    keeps the hook state and allocates object 1. *)
Lemma start_while_listening_witness :
  state (snd (startListening true envGranted listeningWorld)) = state listeningWorld /\
  recognitions (snd (startListening true envGranted listeningWorld))
  = (recognitions listeningWorld ++ [markStarted (configure defaultRecognition)])%list /\
  recognitionRef (snd (startListening true envGranted listeningWorld)) = Some 1.
Proof.
  apply (proj1 (start_while_listening
                  [CallStart; Settle envGranted; Deliver 0 OnStart] envGranted
                  eq_refl)).
  reflexivity.
Defined.

(** ** C3: events of a handle that is no longer the current one *)

(** C3, as the claim states it, fails: after start, stop and a second start,
    object 1 is the current recognition and the hook is listening; an [onend]
    of the old object 0 turns listening off, and an [onresult] of object 0
    rewrites transcript and confidence. *)
Lemma stale_event_counterexample :
  recognitionRef restartedWorld = Some 1 /\
  isListening (state restartedWorld) = true /\
  transcript (state restartedWorld) = EmptyString /\
  confidence (state restartedWorld) = 0%Q /\
  isListening (state (deliver 0 OnEnd restartedWorld)) = false /\
  transcript (state (deliver 0 (OnResult firstEvent) restartedWorld)) = "a red sun" /\
  confidence (state (deliver 0 (OnResult firstEvent) restartedWorld)) = (92 # 100)%Q.
Proof. repeat split. Qed.

(** C3 (amended): the callbacks compare no handle.  An event raised by any
    constructed recognition object, current or not, is handled the same way:
    [onend] turns the listening flag off, whatever it was, and leaves
    transcript, confidence and error unchanged; [onresult] sets the
    transcript to the text of the event's batch and the confidence to that of
    the batch's last final result (if it has one), and leaves the listening
    flag and the error unchanged. *)
Theorem events_ignore_handle_identity (w : World) (h h' : Handle) :
  h < length (recognitions w) ->
  h' < length (recognitions w) ->
  (forall ev, deliver h ev w = deliver h' ev w) /\
  state (deliver h OnEnd w)
  = {| isListening := false; transcript := transcript (state w);
       confidence := confidence (state w); error := error (state w) |} /\
  (forall event,
      let w' := deliver h (OnResult event) w in
      transcript (state w') = finalText (batch event) ++ interimText (batch event) /\
      confidence (state w')
      = default (confidence (state w)) (lastFinalConfidence (batch event)) /\
      isListening (state w') = isListening (state w) /\
      error (state w') = error (state w)).
Proof.
  intros Hh Hh'.
  unfold deliver.
  destruct (recognitions w !! h) eqn:Hr; [| apply lookup_ge_None in Hr; lia].
  destruct (recognitions w !! h') eqn:Hr'; [| apply lookup_ge_None in Hr'; lia].
  split; [reflexivity |]. split; [reflexivity |].
  intros event. cbn zeta. cbn [handler].
  rewrite onresult_spec.
  destruct (confidenceAfter_frame (batch event) w) as (Hl & _ & He & _).
  cbn. rewrite Hl, He, confidenceAfter_confidence. auto.
Qed.

(** In the restarted world, the old object 0 and the current object 1 are
    served by the same callbacks. *)
Lemma events_ignore_handle_identity_witness :
  deliver 0 OnEnd restartedWorld = deliver 1 OnEnd restartedWorld.
Proof.
  apply (proj1 (events_ignore_handle_identity restartedWorld 0 1
                  ltac:(vm_compute; lia) ltac:(vm_compute; lia))).
Defined.

(** ** C4: classification of adapter error codes *)








(** * Further properties of the hook and of the component *)

(** ** The panel's text search *)

Lemma startsWith_iff n : forall s,
  Js.startsWith s n = true <-> exists post, s = n ++ post.
Proof.
  induction n as [|a n IH]; intros s.
  - split; [intros _; now exists s | now destruct s].
  - destruct s as [|b s]; cbn.
    + split; [discriminate | intros [post H]; discriminate].
    + rewrite andb_true_iff, IH. split.
      * intros [Hab [post ->]]. apply Ascii.eqb_eq in Hab as ->. now exists post.
      * intros [post H]. injection H as -> ->.
        split; [apply Ascii.eqb_refl | now exists post].
Qed.

(** [Js.includes] holds exactly when the needle is a contiguous part of the
    text. *)
Lemma includes_iff_substring (s n : string) :
  Js.includes s n = true <-> exists pre post, s = pre ++ n ++ post.
Proof.
  split.
  - induction s as [|c s IH]; cbn [Js.includes]; rewrite orb_true_iff.
    + intros [H | H]; [| discriminate].
      apply startsWith_iff in H as [post ->]. now exists EmptyString, post.
    + intros [H | H].
      * apply startsWith_iff in H as [post ->]. now exists EmptyString, post.
      * destruct (IH H) as (pre & post & ->). now exists (String c pre), post.
  - intros (pre & post & ->). induction pre as [|c pre IH].
    + cbn [append]. destruct (n ++ post) eqn:E; cbn [Js.includes];
        rewrite orb_true_iff; left; apply startsWith_iff; now exists post.
    + cbn [append Js.includes]. rewrite IH. apply orb_true_r.
Qed.

(** X1: the panel takes an error for a permission error exactly when its
    text contains "denied" or "not-allowed" as a contiguous part, wherever
    the text comes from. *)
Theorem isPermissionError_iff_substring (e : string) :
  VoiceRecorder.isPermissionError e = true
  <-> (exists pre post, e = pre ++ "denied" ++ post) \/
      (exists pre post, e = pre ++ "not-allowed" ++ post).
Proof.
  unfold VoiceRecorder.isPermissionError.
  now rewrite orb_true_iff, !includes_iff_substring.
Qed.

(** The denied-permission message of [onerror] contains "denied". *)
Lemma isPermissionError_iff_substring_witness :
  VoiceRecorder.isPermissionError (onerrorMessage "not-allowed") = true.
Proof.
  apply (proj2 (isPermissionError_iff_substring (onerrorMessage "not-allowed"))).
  left. exists "Microphone access ".
  now exists ". Please allow microphone access in your browser settings and try again.".
Defined.

(** X2: of the messages [checkMicrophonePermission] can throw, exactly the
    one for [NotAllowedError] makes the panel offer the permission
    instructions. *)
Theorem permission_probe_remediation (errName : string) :
  VoiceRecorder.isPermissionError (permissionMessage errName) = true
  <-> errName = "NotAllowedError".
Proof.
  unfold permissionMessage. by_code errName; cbn; split;
    try reflexivity; try discriminate; try contradiction.
Qed.

(** The text thrown for [NotAllowedError] passes the panel's test. *)
Lemma permission_probe_remediation_witness :
  VoiceRecorder.isPermissionError (permissionMessage "NotAllowedError") = true.
Proof.
  apply (proj2 (permission_probe_remediation "NotAllowedError")). reflexivity.
Defined.

(** X3: [getBrowserInstructions] tests the user agent for Chrome, Firefox,
    Safari and Edge in that order and gives the first match its own browser
    name and its own three steps, and the generic name and steps when none
    matches.  So a user agent naming Chrome gets the Chrome text whatever
    else it names, the Edge text is only given to a user agent that names
    Edge and none of the other three, and every result has three steps
    ending in the refresh step. *)
Theorem getBrowserInstructions_order (userAgent : string) :
  let i := VoiceRecorder.getBrowserInstructions userAgent in
  let names browser := Js.includes userAgent browser in
  let quote := String (Ascii.ascii_of_nat 34) EmptyString in
  let addressBar := "Click the microphone icon in the address bar" in
  let refresh := "Refresh the page and try again" in
  length (VoiceRecorder.steps i) = 3 /\
  last (VoiceRecorder.steps i) = Some refresh /\
  (names "Chrome" = true -> VoiceRecorder.browser i = "Chrome") /\
  (VoiceRecorder.browser i = "Edge" <->
   names "Edge" = true /\ names "Chrome" = false /\
   names "Firefox" = false /\ names "Safari" = false) /\
  (VoiceRecorder.browser i = "your browser" <->
   names "Chrome" = false /\ names "Firefox" = false /\
   names "Safari" = false /\ names "Edge" = false) /\
  (names "Chrome" = true ->
   i = {| VoiceRecorder.browser := "Chrome";
          VoiceRecorder.steps :=
            [addressBar;
             "Select " ++ quote ++ "Always allow" ++ quote ++ " for microphone access";
             refresh] |}) /\
  (names "Chrome" = false -> names "Firefox" = true ->
   i = {| VoiceRecorder.browser := "Firefox";
          VoiceRecorder.steps :=
            [addressBar;
             "Select " ++ quote ++ "Allow" ++ quote ++ " for microphone access";
             refresh] |}) /\
  (names "Chrome" = false -> names "Firefox" = false -> names "Safari" = true ->
   i = {| VoiceRecorder.browser := "Safari";
          VoiceRecorder.steps :=
            ["Go to Safari > Settings > Websites > Microphone";
             "Set this website to " ++ quote ++ "Allow" ++ quote;
             refresh] |}) /\
  (names "Chrome" = false -> names "Firefox" = false -> names "Safari" = false ->
   names "Edge" = true ->
   i = {| VoiceRecorder.browser := "Edge";
          VoiceRecorder.steps :=
            [addressBar;
             "Select " ++ quote ++ "Always allow" ++ quote ++ " for microphone access";
             refresh] |}) /\
  (names "Chrome" = false -> names "Firefox" = false -> names "Safari" = false ->
   names "Edge" = false ->
   i = {| VoiceRecorder.browser := "your browser";
          VoiceRecorder.steps :=
            ["Look for a microphone icon in your address bar";
             "Allow microphone access for this website";
             refresh] |}).
Proof.
  cbn zeta. unfold VoiceRecorder.getBrowserInstructions.
  destruct (Js.includes userAgent "Chrome");
    [| destruct (Js.includes userAgent "Firefox");
       [| destruct (Js.includes userAgent "Safari");
          [| destruct (Js.includes userAgent "Edge")]]];
    cbn; repeat split; try discriminate; try tauto;
    intros; repeat match goal with H : _ /\ _ |- _ => destruct H end;
    try discriminate; auto.
Qed.

(** An Edge user agent names Chrome and is given the Chrome text. *)
Lemma getBrowserInstructions_order_witness :
  VoiceRecorder.browser
    (VoiceRecorder.getBrowserInstructions
       "Mozilla/5.0 AppleWebKit/537.36 Chrome/126.0 Safari/537.36 Edg/126.0")
  = "Chrome".
Proof.
  apply (proj1 (proj2 (proj2 (getBrowserInstructions_order
    "Mozilla/5.0 AppleWebKit/537.36 Chrome/126.0 Safari/537.36 Edg/126.0")))).
  reflexivity.
Defined.

(** ** One step of the queue, in closed form *)

Lemma exec_eq isSupported w a :
  exec isSupported w a
  = match a with
    | CallStart =>
        if isSupported
        then setPendingStarts (S (pendingStarts w)) (setError None w)
        else setError (Some unsupportedMessage) w
    | Settle env =>
        match pendingStarts w with
        | O => w
        | S _ => settledWorld env w
        end
    | CallStop =>
        setIsListening false
          match recognitionRef w with
          | Some h => setRecognitionRef None
                        (setRecognitions (alter markStopRequested h (recognitions w)) w)
          | None => w
          end
    | CallReset => setError None (setConfidence 0%Q (setTranscript EmptyString w))
    | Deliver h ev => deliver h ev w
    end.
Proof.
  destruct a as [| env | | | h ev]; cbn [exec].
  - rewrite startListening_enter_eq. now destruct isSupported.
  - destruct (pendingStarts w); [reflexivity | now rewrite startListening_resume_eq].
  - now rewrite stopListening_eq.
  - reflexivity.
  - reflexivity.
Qed.

Lemma run_invariant (P : World -> Prop) isSupported :
  (forall w a, P w -> P (exec isSupported w a)) ->
  forall actions w, P w -> P (run isSupported w actions).
Proof.
  intros Hstep actions. induction actions as [|a actions IH]; intros w Hw.
  - exact Hw.
  - apply (IH (exec isSupported w a)). now apply Hstep.
Qed.

Lemma deliver_frame h ev w :
  recognitionRef (deliver h ev w) = recognitionRef w /\
  recognitions (deliver h ev w) = recognitions w /\
  tracks (deliver h ev w) = tracks w /\
  pendingStarts (deliver h ev w) = pendingStarts w.
Proof.
  unfold deliver. destruct (recognitions w !! h); [apply handler_frame | auto].
Qed.

(** ** Invariants of the hook *)

Lemma exec_currentValid isSupported w a :
  currentValid w -> currentValid (exec isSupported w a).
Proof.
  intros Hw. rewrite exec_eq. destruct a as [| env | | | h' ev].
  - destruct isSupported; exact Hw.
  - destruct (pendingStarts w); [exact Hw |].
    unfold currentValid, settledWorld, refAfterStart, recognitionsAfterStart. cbn.
    destruct (permissionFailure env); [exact Hw |].
    destruct (constructThrows env); [exact Hw |].
    intros h [= <-].
    destruct (startThrows env); eexists;
      (split; [apply list_lookup_middle; reflexivity | reflexivity]).
  - unfold currentValid.
    destruct (recognitionRef w) eqn:Href; cbn; intros h0 H; congruence.
  - exact Hw.
  - intros h. destruct (deliver_frame h' ev w) as (-> & -> & _). apply Hw.
Qed.

Lemma exec_configured isSupported w a :
  Forall configured (recognitions w) ->
  Forall configured (recognitions (exec isSupported w a)).
Proof.
  intros Hw. rewrite exec_eq. destruct a as [| env | | | h' ev].
  - destruct isSupported; exact Hw.
  - destruct (pendingStarts w); [exact Hw |].
    unfold settledWorld, recognitionsAfterStart. cbn.
    destruct (permissionFailure env); [exact Hw |].
    destruct (constructThrows env); [exact Hw |].
    destruct (startThrows env); apply Forall_app; (split; [exact Hw |]);
      repeat constructor.
  - cbn. destruct (recognitionRef w) as [h|]; [| exact Hw]. cbn.
    apply Forall_alter; [exact Hw |]. intros r _ Hr. exact Hr.
  - exact Hw.
  - destruct (deliver_frame h' ev w) as (_ & -> & _). exact Hw.
Qed.

Lemma tracksAfterProbe_ended env (ts : list ReadyState) :
  Forall (fun t => t = Ended) ts ->
  Forall (fun t => t = Ended) (tracksAfterProbe env ts).
Proof.
  intros Hts. destruct (tracksAfterProbe_spec env ts) as (Hlen & Hold & Hnew).
  apply Forall_lookup. intros i x Hx.
  destruct (decide (i < length ts)) as [Hlt | Hge].
  - rewrite Hold in Hx by exact Hlt.
    now apply (proj1 (Forall_lookup _ _) Hts i x).
  - apply lookup_lt_Some in Hx as Hi.
    rewrite Hnew in Hx by lia. congruence.
Qed.

Lemma exec_tracks_ended isSupported w a :
  Forall (fun t => t = Ended) (tracks w) ->
  Forall (fun t => t = Ended) (tracks (exec isSupported w a)).
Proof.
  intros Hw. rewrite exec_eq. destruct a as [| env | | | h' ev].
  - destruct isSupported; exact Hw.
  - destruct (pendingStarts w); [exact Hw |]. cbn.
    now apply tracksAfterProbe_ended.
  - cbn. destruct (recognitionRef w); exact Hw.
  - exact Hw.
  - destruct (deliver_frame h' ev w) as (_ & _ & -> & _). exact Hw.
Qed.

(** X4: in every history of the hook from its initial state,
    [recognitionRef.current] is either null or an object the hook constructed
    and has not called [stop()] on. *)
Theorem current_recognition_valid (isSupported : bool) (actions : list Action) :
  let w := run isSupported initialWorld actions in
  forall h : Handle, recognitionRef w = Some h ->
    exists r, recognitions w !! h = Some r /\ stopRequested r = false.
Proof.
  apply (run_invariant currentValid isSupported).
  - intros w a. apply exec_currentValid.
  - intros h. discriminate.
Qed.

(** After a granted start, object 0 is current and was not asked to stop. *)
Lemma current_recognition_valid_witness :
  exists r, recognitions listeningWorld !! 0 = Some r /\ stopRequested r = false.
Proof.
  apply (current_recognition_valid true
           [CallStart; Settle envGranted; Deliver 0 OnStart] 0).
  reflexivity.
Defined.

(** X5: in every history of the hook from its initial state, every
    recognition object it has constructed is configured for continuous
    recognition with interim results, language en-US and one alternative. *)
Theorem recognitions_configured (isSupported : bool) (actions : list Action) :
  Forall configured (recognitions (run isSupported initialWorld actions)).
Proof.
  apply (run_invariant (fun w => Forall configured (recognitions w)) isSupported).
  - intros w a. apply exec_configured.
  - constructor.
Qed.

(** X6: no history of the hook from its initial state leaves a microphone
    track live: every track the permission probes ever acquired is ended. *)
Theorem no_live_track_left (isSupported : bool) (actions : list Action) :
  Forall (fun t => t = Ended) (tracks (run isSupported initialWorld actions)).
Proof.
  apply (run_invariant (fun w => Forall (fun t => t = Ended) (tracks w)) isSupported).
  - intros w a. apply exec_tracks_ended.
  - constructor.
Qed.

(** ** Recorded errors *)

Lemma permissionMessage_text n : permissionMessage n <> EmptyString.
Proof. unfold permissionMessage. by_code n; discriminate. Qed.

Lemma onerrorMessage_text code : onerrorMessage code <> EmptyString.
Proof. unfold onerrorMessage. by_code code; discriminate. Qed.

Lemma orElse_text a : Js.orElse a startFailedMessage <> EmptyString.
Proof. destruct a; discriminate. Qed.

Lemma startFailure_text env msg : startFailure env = Some msg -> msg <> EmptyString.
Proof.
  unfold startFailure.
  destruct (permissionFailure env) as [n|].
  - intros [= <-]. apply permissionMessage_text.
  - destruct (engineFailure env) as [e|]; [| discriminate].
    intros [= <-]. apply orElse_text.
Qed.

Lemma exec_errorHasText isSupported w a :
  errorHasText w -> errorHasText (exec isSupported w a).
Proof.
  intros Hw. rewrite exec_eq. destruct a as [| env | | | h ev].
  - destruct isSupported; intros msg; cbn; [discriminate |].
    intros [= <-]. discriminate.
  - destruct (pendingStarts w); [exact Hw |].
    intros msg. unfold settledWorld. cbn.
    destruct (startFailure env) as [m|] eqn:Hm; cbn; [| apply Hw].
    intros [= <-]. now apply startFailure_text in Hm.
  - intros msg. cbn. destruct (recognitionRef w); apply Hw.
  - intros msg. cbn. discriminate.
  - intros msg. unfold deliver. destruct (recognitions w !! h); [| apply Hw].
    rewrite handler_error. destruct ev as [| event | code |]; try apply Hw.
    + discriminate.
    + intros [= <-]. apply onerrorMessage_text.
Qed.

(** X7: in every history of the hook from its initial state a recorded error
    is never the empty string, so the component's [error && ...] test shows
    the error panel exactly when an error is recorded, and the panel shows
    the permission steps only under the "Show permission instructions"
    button. *)
Theorem error_panel_shown_iff_error
        (userAgent : string) (actions : list Action) (help : bool) :
  let w := run true initialWorld actions in
  let c := {| Component.hook := w; Component.showPermissionHelp := help |} in
  (forall msg, error (state w) = Some msg -> msg <> EmptyString) /\
  exists panel status label box,
    Component.render true userAgent c = Component.Recorder panel label status box /\
    (panel = None <-> error (state w) = None) /\
    (forall p, panel = Some p ->
               error (state w) = Some (Component.message p) /\
               (Component.help p <> None ->
                Component.button p = VoiceRecorder.ShowPermissionInstructions)).
Proof.
  cbn zeta.
  assert (Htext : errorHasText (run true initialWorld actions)).
  { apply (run_invariant errorHasText true).
    - intros w a. apply exec_errorHasText.
    - intros msg. discriminate. }
  split; [exact Htext |].
  unfold Component.render. cbn.
  destruct (error (state (run true initialWorld actions))) as [e|] eqn:He.
  - specialize (Htext e He).
    destruct e as [|ch e]; [contradiction |]. cbn.
    eexists _, _, _, _. split; [reflexivity |]. split; [split; discriminate |].
    intros p [= <-]. cbn. split; [reflexivity |].
    unfold VoiceRecorder.errorButton.
    destruct (VoiceRecorder.isPermissionError (String ch e));
      [reflexivity |].
    rewrite andb_false_r. intros H. now contradiction H.
  - cbn. eexists _, _, _, _. split; [reflexivity |]. split; [split; reflexivity |].
    intros p. discriminate.
Qed.

(** After a denied start the panel shows the recorded message. *)
Lemma error_panel_shown_iff_error_witness :
  "Microphone access denied. Please allow microphone access and try again."
  <> EmptyString.
Proof.
  apply (proj1 (error_panel_shown_iff_error EmptyString
                  [CallStart; Settle envDenied] false)).
  reflexivity.
Defined.

(** ** An unsupported environment *)

Lemma run_unsupported (actions : list Action) :
  run false initialWorld actions = initialWorld \/
  run false initialWorld actions = setError (Some unsupportedMessage) initialWorld.
Proof.
  apply (run_invariant
           (fun w => w = initialWorld \/
                     w = setError (Some unsupportedMessage) initialWorld) false).
  - intros w a [-> | ->]; destruct a as [| env | | | h ev]; cbn; auto.
  - now left.
Qed.

(** X8: where speech recognition is not supported, whatever is called and
    whatever events are queued, the hook constructs no recognition object,
    requests no microphone access and never listens: the world stays the
    initial one, but for the "not supported" error that [startListening]
    records and [resetTranscript] clears; and the component renders the
    "not supported" notice only. *)
Theorem unsupported_environment_inert
        (actions : list Action) (userAgent : string) (help : bool) :
  let w := run false initialWorld actions in
  (w = initialWorld \/ w = setError (Some unsupportedMessage) initialWorld) /\
  recognitions w = [] /\ tracks w = [] /\ isListening (state w) = false /\
  Component.render false userAgent
    {| Component.hook := w; Component.showPermissionHelp := help |}
  = Component.NotSupported.
Proof.
  cbn zeta. split; [apply run_unsupported |].
  destruct (run_unsupported actions) as [-> | ->]; repeat split.
Qed.

(** X9: whether or not the environment supports recognition, in every
    history of the hook from its initial state the listening flag and a
    recorded error exclude each other. *)
Theorem listening_excludes_error (isSupported : bool) (actions : list Action) :
  isListening (state (run isSupported initialWorld actions)) = true ->
  error (state (run isSupported initialWorld actions)) = None.
Proof.
  destruct isSupported; [apply listening_no_error |].
  destruct (run_unsupported actions) as [-> | ->]; discriminate.
Qed.

(** In the listening world no error is recorded. *)
Lemma listening_excludes_error_witness :
  error (state listeningWorld) = None.
Proof.
  apply (listening_excludes_error true
           [CallStart; Settle envGranted; Deliver 0 OnStart]).
  reflexivity.
Defined.

(** ** Objects that are no longer current *)

Lemma exec_not_current isSupported w a (h : Handle) :
  h < length (recognitions w) ->
  recognitionRef w <> Some h ->
  length (recognitions w) <= length (recognitions (exec isSupported w a)) /\
  recognitionRef (exec isSupported w a) <> Some h /\
  recognitions (exec isSupported w a) !! h = recognitions w !! h.
Proof.
  intros Hh Href. rewrite exec_eq. destruct a as [| env | | | h' ev].
  - destruct isSupported; cbn; auto.
  - destruct (pendingStarts w); [auto |].
    unfold settledWorld, refAfterStart, recognitionsAfterStart. cbn.
    destruct (permissionFailure env); [auto |].
    destruct (constructThrows env); [auto |].
    destruct (startThrows env); rewrite length_app;
      (split; [lia |]); (split; [intros [= E]; lia |]);
      now apply lookup_app_l.
  - cbn. destruct (recognitionRef w) as [h0|] eqn:E; cbn.
    + rewrite length_alter. split; [lia |]. split; [easy |].
      apply list_lookup_alter_ne. congruence.
    + split; [lia |]. split; [congruence | reflexivity].
  - cbn. auto.
  - destruct (deliver_frame h' ev w) as (-> & -> & _). auto.
Qed.

(** X10: a recognition object that is not the current one (because
    [stopListening] cleared it or a later [startListening] overwrote it) is
    never touched again: whatever follows, it never becomes current and the
    hook calls neither [start()] nor [stop()] on it. *)
Theorem not_current_never_touched
        (isSupported : bool) (w : World) (h : Handle) (actions : list Action) :
  h < length (recognitions w) ->
  recognitionRef w <> Some h ->
  recognitionRef (run isSupported w actions) <> Some h /\
  recognitions (run isSupported w actions) !! h = recognitions w !! h.
Proof.
  revert w. induction actions as [|a actions IH]; intros w Hh Href; [auto |].
  destruct (exec_not_current isSupported w a h Hh Href) as (Hlen & Href' & Hsame).
  change (run isSupported w (a :: actions))
    with (run isSupported (exec isSupported w a) actions).
  destruct (IH (exec isSupported w a) ltac:(lia) Href') as (H1 & H2).
  split; [exact H1 | congruence].
Qed.

(** Object 0, overwritten by a second start while listening, is still
    running after the user stops: only object 1 received [stop()]. *)
Lemma not_current_never_touched_witness :
  let w := run true listeningWorld [CallStart; Settle envGranted] in
  recognitionRef (run true w [CallStop]) <> Some 0 /\
  recognitions (run true w [CallStop]) !! 0 = recognitions w !! 0.
Proof.
  apply (not_current_never_touched true
           (run true listeningWorld [CallStart; Settle envGranted]) 0 [CallStop]).
  - vm_compute. lia.
  - discriminate.
Defined.

(** ** Results, again *)

Lemma confidenceAfter_eq rs w :
  confidenceAfter rs w
  = match lastFinalConfidence rs with
    | Some c => setConfidence c w
    | None => w
    end.
Proof.
  induction rs as [|r rs IH] using rev_ind; [reflexivity |].
  unfold confidenceAfter, lastFinalConfidence in *.
  rewrite !foldl_app. cbn [foldl].
  destruct (SpeechAPI.isFinal r); [| exact IH].
  rewrite IH. now destruct (foldl _ None rs).
Qed.

Lemma lastFinalConfidence_snoc rs r :
  lastFinalConfidence (rs ++ [r])
  = if SpeechAPI.isFinal r
    then Some (SpeechAPI.confidence (SpeechAPI.alt0 r))
    else lastFinalConfidence rs.
Proof. unfold lastFinalConfidence. now rewrite foldl_app. Qed.

Lemma lastFinalConfidence_app rs1 rs2 :
  lastFinalConfidence (rs1 ++ rs2)
  = match lastFinalConfidence rs2 with
    | Some c => Some c
    | None => lastFinalConfidence rs1
    end.
Proof.
  induction rs2 as [|r rs2 IH] using rev_ind.
  - now rewrite app_nil_r.
  - rewrite app_assoc, !lastFinalConfidence_snoc.
    destruct (SpeechAPI.isFinal r); [reflexivity | exact IH].
Qed.

Lemma handler_confidence ev w :
  confidence (state (handler ev w))
  = default (confidence (state w)) (lastFinalConfidence (batchOf ev)).
Proof.
  destruct ev as [| event | code |]; try reflexivity.
  cbn [handler batchOf]. rewrite onresult_spec. cbn.
  apply confidenceAfter_confidence.
Qed.

(** X11: the confidence survives across events although the transcript does
    not: after any sequence of recognition callbacks it is the confidence of
    the most recent final result over all the batches received, or what it
    was before when none of them held a final result. *)
Theorem confidence_of_last_final (events : list RecEvent) (w : World) :
  confidence (state (foldl (fun w ev => handler ev w) w events))
  = default (confidence (state w))
      (lastFinalConfidence (concat (map batchOf events))).
Proof.
  induction events as [|ev events IH] using rev_ind; [reflexivity |].
  rewrite foldl_app, map_app, concat_app. cbn [foldl map concat].
  rewrite app_nil_r, handler_confidence, lastFinalConfidence_app, IH.
  now destruct (lastFinalConfidence (batchOf ev)).
Qed.

(** X12: delivering the same result event twice is the same as delivering it
    once, and an event whose [resultIndex] is at or beyond the end of its
    result list empties the transcript and leaves everything else as it
    was. *)
Theorem onresult_idempotent_and_empty (event : SpeechAPI.Event) (w : World) :
  onresult event (onresult event w) = onresult event w /\
  (length (SpeechAPI.results event) <= SpeechAPI.resultIndex event ->
   onresult event w = setTranscript EmptyString w).
Proof.
  split.
  - rewrite !onresult_spec, !confidenceAfter_eq.
    now destruct (lastFinalConfidence (batch event)).
  - intros Hlen. rewrite onresult_spec. unfold batchText, batch.
    now rewrite drop_ge by exact Hlen.
Qed.

(** An event pointing past its single result clears the transcript. *)
Lemma onresult_idempotent_and_empty_witness :
  onresult {| SpeechAPI.resultIndex := 1;
              SpeechAPI.results := [finalResult "a red sun" (92 # 100)] |}
           listeningWorld
  = setTranscript EmptyString listeningWorld.
Proof.
  apply (proj2 (onresult_idempotent_and_empty
                  {| SpeechAPI.resultIndex := 1;
                     SpeechAPI.results := [finalResult "a red sun" (92 # 100)] |}
                  listeningWorld)).
  vm_compute. lia.
Defined.

Lemma finalText_all rs :
  Forall (fun r => SpeechAPI.isFinal r = true) rs ->
  finalText rs = allText rs /\ interimText rs = EmptyString.
Proof.
  induction 1 as [|r rs Hr _ [IH1 IH2]]; [auto |].
  cbn. rewrite Hr, IH1, IH2. auto.
Qed.

Lemma interimText_all rs :
  Forall (fun r => SpeechAPI.isFinal r = false) rs ->
  interimText rs = allText rs /\ finalText rs = EmptyString.
Proof.
  induction 1 as [|r rs Hr _ [IH1 IH2]]; [auto |].
  cbn. rewrite Hr, IH1, IH2. auto.
Qed.

Lemma finalText_app rs1 rs2 : finalText (rs1 ++ rs2) = finalText rs1 ++ finalText rs2.
Proof.
  induction rs1 as [|r rs1 IH]; [reflexivity |]. cbn.
  destruct (SpeechAPI.isFinal r); rewrite IH; [now rewrite append_assoc | reflexivity].
Qed.

Lemma interimText_app rs1 rs2 :
  interimText (rs1 ++ rs2) = interimText rs1 ++ interimText rs2.
Proof.
  induction rs1 as [|r rs1 IH]; [reflexivity |]. cbn.
  destruct (SpeechAPI.isFinal r); rewrite IH; [reflexivity | now rewrite append_assoc].
Qed.

Lemma allText_app rs1 rs2 : allText (rs1 ++ rs2) = allText rs1 ++ allText rs2.
Proof.
  induction rs1 as [|r rs1 IH]; [reflexivity |]. cbn.
  now rewrite IH, append_assoc.
Qed.

(** X13: when the batch of an event lists its final results before its
    interim ones, the transcript after the event is the texts of the batch in
    their order. *)
Theorem onresult_ordered_batch
        (event : SpeechAPI.Event) (finals interims : list SpeechAPI.Result)
        (w : World) :
  batch event = (finals ++ interims)%list ->
  Forall (fun r => SpeechAPI.isFinal r = true) finals ->
  Forall (fun r => SpeechAPI.isFinal r = false) interims ->
  transcript (state (onresult event w)) = allText (batch event).
Proof.
  intros Hb Hf Hi. rewrite onresult_transcript. unfold batchText.
  rewrite Hb, finalText_app, interimText_app, allText_app.
  destruct (finalText_all _ Hf) as [-> ->].
  destruct (interimText_all _ Hi) as [-> ->].
  now rewrite append_empty_r.
Qed.

(** A batch of one final and one interim result reads in order. *)
Lemma onresult_ordered_batch_witness :
  transcript (state (onresult
    {| SpeechAPI.resultIndex := 0;
       SpeechAPI.results := [finalResult "a red sun" (92 # 100);
                             interimResult "over the sea"] |} initialWorld))
  = "a red sunover the sea".
Proof.
  apply (onresult_ordered_batch
           {| SpeechAPI.resultIndex := 0;
              SpeechAPI.results := [finalResult "a red sun" (92 # 100);
                                    interimResult "over the sea"] |}
           [finalResult "a red sun" (92 # 100)] [interimResult "over the sea"]
           initialWorld).
  - reflexivity.
  - repeat constructor.
  - repeat constructor.
Defined.

(** ** Commands composed *)


(** X15: when the permission is granted and the engine then fails, the call
    ends not listening with the engine's message recorded (the fallback text
    when that message is empty).  If [new SpeechRecognition()] threw, no
    object is added and [recognitionRef.current] is what it was; if
    [recognition.start()] threw, the new object is configured, never started,
    and nevertheless stored as current, so that the next [stopListening]
    calls [stop()] on it. *)
Theorem engine_failure_after_permission (env : Env) (w : World) (e : Js.Error) :
  permissionFailure env = None ->
  engineFailure env = Some e ->
  let w' := snd (startListening true env w) in
  isListening (state w') = false /\
  error (state w') = Some (Js.orElse (Js.message e) startFailedMessage) /\
  (constructThrows env = Some e ->
   recognitions w' = recognitions w /\ recognitionRef w' = recognitionRef w) /\
  (constructThrows env = None ->
   recognitions w' = (recognitions w ++ [configure defaultRecognition])%list /\
   recognitionRef w' = Some (length (recognitions w)) /\
   recognitions (snd (stopListening w'))
   = (recognitions w ++ [markStopRequested (configure defaultRecognition)])%list).
Proof.
  intros Hperm Heng. cbn zeta.
  rewrite startListening_eq, stopListening_eq. cbn [snd].
  unfold settledWorld, startFailure, refAfterStart, recognitionsAfterStart.
  rewrite Hperm, Heng. unfold engineFailure in Heng. cbn.
  destruct (constructThrows env) as [e'|]; cbn.
  - split; [reflexivity |]. split; [reflexivity |].
    split; [auto | discriminate].
  - rewrite Heng. cbn.
    split; [reflexivity |]. split; [reflexivity |].
    split; [discriminate |]. intros _.
    split; [reflexivity |]. split; [reflexivity |]. apply alter_fresh.
Qed.

(** The engine refuses to start: object 0 is stored although never started. *)
Lemma engine_failure_after_permission_witness :
  isListening (state (snd (startListening true envStartThrows initialWorld))) = false /\
  error (state (snd (startListening true envStartThrows initialWorld)))
  = Some "recognition has already started".
Proof.
  pose proof (engine_failure_after_permission envStartThrows initialWorld
                {| Js.name := "InvalidStateError";
                   Js.message := "recognition has already started" |}
                eq_refl eq_refl) as (H1 & H2 & _).
  split; [exact H1 | exact H2].
Defined.

(** X16: [checkMicrophonePermission] never resolves with [false]: it returns
    [true] exactly when the media-devices interface exists and grants a
    stream, and otherwise throws a plain [Error] with one of its four
    texts.  The text of its first [throw] (for a missing interface) is
    replaced by its own [catch]: what leaves the function then is the generic
    "Failed to access microphone" text. *)
Theorem probe_outcome (env : Env) (w : World) :
  fst (checkMicrophonePermission env w) <> Normal false /\
  (fst (checkMicrophonePermission env w) = Normal true <->
   hasMediaDevices env = true /\ exists n, getUserMedia env = Granted n) /\
  (hasMediaDevices env = false ->
   fst (checkMicrophonePermission env w)
   = Throw (Js.newError
              "Failed to access microphone. Please check your browser settings.")) /\
  (forall e, fst (checkMicrophonePermission env w) = Throw e ->
             Js.name e = "Error" /\
             Js.message e <> "Microphone access is not supported in this browser" /\
             Js.message e <> EmptyString).
Proof.
  rewrite checkMicrophonePermission_eq. cbn [fst]. unfold permissionFailure.
  destruct (hasMediaDevices env); [destruct (getUserMedia env) as [n|e0] |].
  - split; [easy |]. split; [| split; [easy | intros e H; discriminate H]].
    split; [intros _; split; [reflexivity | now exists n] | reflexivity].
  - split; [easy |]. split; [| split; [easy |]].
    + split; [easy | intros [_ [n H]]; discriminate H].
    + intros e [= <-]. cbn. split; [reflexivity |].
      split; [| apply permissionMessage_text].
      generalize (Js.name e0) as errName. intros errName.
      unfold permissionMessage. by_code errName; cbn; intros H; discriminate H.
  - split; [easy |]. split; [| split; [reflexivity |]].
    + split; [easy | intros [H _]; discriminate H].
    + intros e [= <-]. cbn. split; [reflexivity |]. split; easy.
Qed.

(** Without the media-devices interface the generic text is thrown. *)
Lemma probe_outcome_witness :
  fst (checkMicrophonePermission
         {| hasMediaDevices := false; getUserMedia := Granted 1;
            constructThrows := None; startThrows := None |} initialWorld)
  = Throw (Js.newError
             "Failed to access microphone. Please check your browser settings.").
Proof.
  apply (proj1 (proj2 (proj2 (probe_outcome
           {| hasMediaDevices := false; getUserMedia := Granted 1;
              constructThrows := None; startThrows := None |} initialWorld)))).
  reflexivity.
Defined.

(** ** The component's handlers *)

Lemma settledWorld_success env w :
  startFailure env = None ->
  settledWorld env w
  = {| state := state w;
       recognitionRef := Some (length (recognitions w));
       recognitions := (recognitions w ++ [markStarted (configure defaultRecognition)])%list;
       tracks := tracksAfterProbe env (tracks w);
       pendingStarts := pred (pendingStarts w) |}.
Proof.
  intros Hok. unfold settledWorld, refAfterStart, recognitionsAfterStart.
  rewrite Hok. unfold startFailure, engineFailure in Hok.
  destruct (permissionFailure env); [discriminate |].
  destruct (constructThrows env); [discriminate |].
  destruct (startThrows env); [discriminate | reflexivity].
Qed.

(** X17: a full press-speak-press cycle through the record button.  From a
    component that is not listening and shows no error, a press whose start
    succeeds, the engine's [onstart] for the new object, and a second press
    bring the hook state back to what it was; the second press starts
    nothing: it clears the stored handle, and the one object of the cycle
    has been configured, started and asked to stop. *)
Theorem toggle_cycle (env env' : Env) (c : Component.State) :
  isListening (state (Component.hook c)) = false ->
  error (state (Component.hook c)) = None ->
  startFailure env = None ->
  let new := length (recognitions (Component.hook c)) in
  let c1 := snd (Component.handleToggleRecording true env c) in
  let c2 := {| Component.hook := deliver new OnStart (Component.hook c1);
               Component.showPermissionHelp := Component.showPermissionHelp c1 |} in
  let c3 := snd (Component.handleToggleRecording true env' c2) in
  isListening (state (Component.hook c2)) = true /\
  recognitionRef (Component.hook c2) = Some new /\
  state (Component.hook c3) = state (Component.hook c) /\
  recognitionRef (Component.hook c3) = None /\
  recognitions (Component.hook c3)
  = (recognitions (Component.hook c)
     ++ [markStopRequested (markStarted (configure defaultRecognition))])%list /\
  Component.showPermissionHelp c3 = Component.showPermissionHelp c.
Proof.
  destruct c as [w help]. cbn [Component.hook Component.showPermissionHelp].
  intros Hoff Herr Hok. cbn zeta.
  assert (E1 : snd (Component.handleToggleRecording true env
                      {| Component.hook := w; Component.showPermissionHelp := help |})
               = {| Component.hook :=
                      settledWorld env
                        (setPendingStarts (S (pendingStarts w)) (setError None w));
                    Component.showPermissionHelp := help |}).
  { unfold Component.handleToggleRecording, Component.onHook.
    cbn [Component.hook Component.showPermissionHelp].
    now rewrite Hoff, startListening_eq. }
  rewrite E1. cbn [Component.hook Component.showPermissionHelp].
  rewrite (settledWorld_success env _ Hok).
  unfold deliver. cbn [recognitions setPendingStarts setError withState].
  rewrite list_lookup_middle by reflexivity.
  cbn [handler]. unfold Component.handleToggleRecording, Component.onHook.
  cbn [Component.hook Component.showPermissionHelp].
  rewrite stopListening_eq. cbn.
  rewrite alter_fresh.
  repeat split.
  destruct (state w) as [l t q e]. cbn in *. now subst.
Qed.

(** From the initial component: press, [onstart], press. *)
Lemma toggle_cycle_witness :
  state (Component.hook
    (snd (Component.handleToggleRecording true envGranted
       {| Component.hook :=
            deliver 0 OnStart
              (Component.hook
                 (snd (Component.handleToggleRecording true envGranted
                         Component.initial)));
          Component.showPermissionHelp := false |})))
  = initialState.
Proof.
  pose proof (toggle_cycle envGranted envGranted Component.initial
                eq_refl eq_refl eq_refl) as (_ & _ & H & _).
  exact H.
Defined.

(** ** The profile service *)

Lemma split_nonempty sep s : ProfileService.split sep s <> [].
Proof.
  destruct s as [|c s]; cbn; [discriminate |].
  destruct (Ascii.eqb c sep); [discriminate |].
  destruct (ProfileService.split sep s); discriminate.
Qed.

Lemma split_concat sep s :
  String.concat (String sep EmptyString) (ProfileService.split sep s) = s.
Proof.
  induction s as [|c s IH]; [reflexivity |]. cbn [ProfileService.split].
  destruct (Ascii.eqb_spec c sep) as [-> | Hne].
  - destruct (ProfileService.split sep s) as [|seg rest] eqn:E.
    + now apply split_nonempty in E.
    + cbn [String.concat]. cbn [String.concat] in IH. now rewrite IH.
  - destruct (ProfileService.split sep s) as [|seg rest] eqn:E.
    + now apply split_nonempty in E.
    + cbn [String.concat] in *. destruct rest; cbn; now rewrite <- IH.
Qed.

Lemma split_no_separator sep s :
  Forall (fun seg => Js.occurs sep seg = false) (ProfileService.split sep s).
Proof.
  induction s as [|c s IH]; cbn [ProfileService.split].
  - repeat constructor.
  - destruct (Ascii.eqb c sep) eqn:Hc.
    + constructor; [reflexivity | exact IH].
    + destruct (ProfileService.split sep s) as [|seg rest].
      * repeat constructor. cbn. now rewrite Hc.
      * inversion IH as [|? ? Hseg Hrest]; subst.
        constructor; [cbn; now rewrite Hc, Hseg | exact Hrest].
Qed.

Lemma concat_snoc sep (init : list string) (x : string) :
  init <> [] ->
  String.concat sep (init ++ [x]) = String.concat sep init ++ sep ++ x.
Proof.
  induction init as [|a init IH]; [contradiction |]. intros _.
  destruct init as [|b init]; [reflexivity |].
  change (String.concat sep ((a :: b :: init) ++ [x]))
    with (a ++ sep ++ String.concat sep ((b :: init) ++ [x])).
  rewrite IH by discriminate.
  change (String.concat sep (a :: b :: init))
    with (a ++ sep ++ String.concat sep (b :: init)).
  now rewrite !append_assoc.
Qed.

(** X18: the storage path of an avatar.  [file.name.split('.').pop()] is
    never undefined: it is the part of the name after its last dot, or the
    whole name when there is no dot, and holds no dot itself; joining the
    pieces of the split with dots gives the name back; and the path is the
    user id, a dash, the time stamp, a dot and that extension. *)
Theorem avatar_extension (userId : string) (now : N) (file : ProfileService.File) :
  String.concat "." (ProfileService.split "." (ProfileService.fileName file))
  = ProfileService.fileName file /\
  exists ext,
    ProfileService.pop (ProfileService.split "." (ProfileService.fileName file))
    = Some ext /\
    Js.occurs "." ext = false /\
    (ProfileService.fileName file = ext \/
     exists stem, ProfileService.fileName file = stem ++ "." ++ ext) /\
    ProfileService.avatarPath userId now file
    = userId ++ "-" ++ ProfileService.showNumber now ++ "." ++ ext.
Proof.
  split; [apply split_concat |].
  unfold ProfileService.avatarPath, ProfileService.pop.
  pose proof (split_concat "." (ProfileService.fileName file)) as Hcat.
  pose proof (split_no_separator "." (ProfileService.fileName file)) as Hsep.
  pose proof (split_nonempty "." (ProfileService.fileName file)) as Hne.
  destruct (ProfileService.split "." (ProfileService.fileName file))
    as [|ext init _] using rev_ind; [contradiction |].
  exists ext. rewrite last_snoc. split; [reflexivity |].
  apply Forall_app in Hsep as [_ Hext]. inversion Hext as [|? ? He _]; subst.
  split; [exact He |]. split; [| reflexivity].
  destruct init as [|a init].
  - left. now rewrite <- Hcat.
  - right. exists (String.concat "." (a :: init)).
    rewrite <- Hcat at 1. now apply concat_snoc.
Qed.

(** X19: the requests [uploadAvatar] sends.  It never lists or creates a
    bucket: it uploads once, to the computed path in the avatars bucket; it
    asks for the public URL of that path exactly when the upload succeeded;
    and it returns a URL exactly when the upload succeeded and the URL is
    there and not empty.  A refused upload leaves as "Upload failed: " and
    the backend's message, a missing URL as the fixed text. *)
Theorem uploadAvatar_requests
        (userId : string) (now : N) (file : ProfileService.File)
        (b : ProfileService.Backend) :
  let path := ProfileService.avatarPath userId now file in
  let result := fst (ProfileService.uploadAvatar userId now file b) in
  let calls := snd (ProfileService.uploadAvatar userId now file b) in
  calls
  = (ProfileService.Upload "avatars" path
     :: match ProfileService.upload b with
        | None => [ProfileService.GetPublicUrl "avatars" path]
        | Some _ => []
        end) /\
  (forall url,
      result = Normal url <->
      ProfileService.upload b = None /\
      ProfileService.publicUrl b = Some url /\ url <> EmptyString) /\
  (forall msg,
      ProfileService.upload b = Some msg ->
      result = Throw (Js.newError ("Upload failed: " ++ msg))) /\
  (ProfileService.upload b = None ->
   ProfileService.publicUrl b = None \/
   ProfileService.publicUrl b = Some EmptyString ->
   result = Throw (Js.newError "Failed to get public URL for uploaded image")).
Proof.
  cbn zeta. unfold ProfileService.uploadAvatar.
  destruct (ProfileService.upload b) as [um|];
    [| destruct (ProfileService.publicUrl b) as [[|ch url']|]]; cbn.
  - split; [reflexivity |]. split; [| split].
    + intros url. split; [intros H; discriminate H | intros [H _]; discriminate H].
    + intros msg [= <-]. reflexivity.
    + intros H. discriminate H.
  - split; [reflexivity |]. split; [| split].
    + intros url. split; [intros H; discriminate H |].
      intros (_ & [= <-] & H). now contradiction H.
    + intros msg H. discriminate H.
    + reflexivity.
  - split; [reflexivity |]. split; [| split].
    + intros url. split.
      * intros [= <-]. repeat split. discriminate.
      * intros (_ & [= <-] & _). reflexivity.
    + intros msg H. discriminate H.
    + intros _ [H | H]; discriminate H.
  - split; [reflexivity |]. split; [| split].
    + intros url. split; [intros H; discriminate H |].
      intros (_ & H & _). discriminate H.
    + intros msg H. discriminate H.
    + reflexivity.
Qed.

(** An accepted upload with a public URL returns that URL. *)
Lemma uploadAvatar_requests_witness :
  fst (ProfileService.uploadAvatar "user-123" 1718000000000
         {| ProfileService.fileName := "me.png";
            ProfileService.fileType := "image/png";
            ProfileService.fileSize := 1024 |}
         {| ProfileService.listBuckets := None;
            ProfileService.createBucket := Some "not allowed";
            ProfileService.upload := None;
            ProfileService.publicUrl := Some "https://cdn/avatars/me.png";
            ProfileService.updateAnswer :=
              {| ProfileService.data := None; ProfileService.dbError := None |} |})
  = Normal "https://cdn/avatars/me.png".
Proof.
  apply (proj1 (proj2 (uploadAvatar_requests "user-123" 1718000000000 _ _))).
  repeat split. discriminate.
Defined.

Lemma orNull_text x : ProfileService.orNull x <> Some EmptyString.
Proof. destruct x as [[|c s]|]; discriminate. Qed.

Lemma orNull_stored x : ProfileService.storedOrNull x (ProfileService.orNull x).
Proof.
  split.
  - intros [-> | ->]; reflexivity.
  - intros c s ->. reflexivity.
Qed.

(** X20: the row [createProfile] inserts.  Its id is the user id; each of
    the four text fields (user name, full name, bio, avatar URL) is stored as
    null when it is missing or empty and as given otherwise, so never as an
    empty string; the visibility flag is the given one and defaults to
    public only when it is missing, so an explicit [false] is kept; the
    [email] argument has no influence on the row. *)
Theorem createProfile_row
        (userId email email' : string) (data : ProfileService.UpdateProfileData) :
  let row := ProfileService.profileData userId email data in
  ProfileService.row_id row = userId /\
  ProfileService.row_username row <> Some EmptyString /\
  ProfileService.row_full_name row <> Some EmptyString /\
  ProfileService.row_bio row <> Some EmptyString /\
  ProfileService.row_avatar_url row <> Some EmptyString /\
  (forall c s, ProfileService.new_username data = Some (String c s) ->
               ProfileService.row_username row = Some (String c s)) /\
  (ProfileService.row_is_public_profile row = false <->
   ProfileService.new_is_public_profile data = Some false) /\
  ProfileService.profileData userId email' data = row /\
  ProfileService.storedOrNull (ProfileService.new_username data)
                              (ProfileService.row_username row) /\
  ProfileService.storedOrNull (ProfileService.new_full_name data)
                              (ProfileService.row_full_name row) /\
  ProfileService.storedOrNull (ProfileService.new_bio data)
                              (ProfileService.row_bio row) /\
  ProfileService.storedOrNull (ProfileService.new_avatar_url data)
                              (ProfileService.row_avatar_url row) /\
  ProfileService.row_is_public_profile row
  = match ProfileService.new_is_public_profile data with
    | Some flag => flag
    | None => true
    end.
Proof.
  cbn zeta. unfold ProfileService.profileData. cbn.
  split; [reflexivity |].
  repeat (split; [apply orNull_text |]).
  split; [intros c s ->; reflexivity |].
  split; [destruct (ProfileService.new_is_public_profile data) as [[|]|]; cbn;
          split; congruence |].
  split; [reflexivity |].
  repeat (split; [apply orNull_stored |]).
  now destruct (ProfileService.new_is_public_profile data).
Qed.

(** A private profile with an empty user name: the flag is kept. *)
Lemma createProfile_row_witness :
  ProfileService.row_is_public_profile
    (ProfileService.profileData "user-123" "jamie@example.com"
       {| ProfileService.new_username := Some EmptyString;
          ProfileService.new_full_name := None;
          ProfileService.new_bio := None;
          ProfileService.new_avatar_url := None;
          ProfileService.new_is_public_profile := Some false |})
  = false.
Proof.
  apply (proj2 (proj1 (proj2 (proj2 (proj2 (proj2 (proj2 (proj2
    (createProfile_row "user-123" "jamie@example.com" EmptyString _))))))))).
  reflexivity.
Defined.

Lemma uploadAvatar_calls userId now file b :
  snd (ProfileService.uploadAvatar userId now file b) <> [].
Proof.
  unfold ProfileService.uploadAvatar.
  destruct (ProfileService.upload b);
    [| destruct (ProfileService.orNull (ProfileService.publicUrl b))]; discriminate.
Qed.

(** The gate of [handleFileChange] and what its two outcomes leave. *)
Lemma handleFileChange_outcomes
        (file : option ProfileService.File) (user : option string) (now : N)
        (b : ProfileService.Backend) (p : ProfileService.Page) :
  let p' := fst (ProfileService.handleFileChange file user now b p) in
  let calls := snd (ProfileService.handleFileChange file user now b p) in
  (calls <> [] <->
   exists f userId,
     file = Some f /\ user = Some userId /\ ProfileService.profile p <> None /\
     Js.startsWith (ProfileService.fileType f) "image/" = true /\
     (ProfileService.fileSize f <= 5242880)%N) /\
  (calls <> [] -> ProfileService.isUploadingAvatar p' = false) /\
  (calls = [] -> ProfileService.profile p' = ProfileService.profile p /\
                 ProfileService.isUploadingAvatar p'
                 = ProfileService.isUploadingAvatar p) /\
  (ProfileService.profile p' = ProfileService.profile p \/
   ProfileService.pageError p' = None /\
   exists f userId url,
     file = Some f /\ user = Some userId /\
     fst (ProfileService.uploadAvatar userId now f b) = Normal url /\
     ProfileService.dbError (ProfileService.updateAnswer b) = None /\
     ProfileService.profile p' = ProfileService.data (ProfileService.updateAnswer b) /\
     last calls = Some (ProfileService.UpdateRow userId (ProfileService.avatarPatch url))).
Proof.
  cbn zeta. unfold ProfileService.handleFileChange.
  destruct file as [f|]; [| cbn; repeat split; auto; try easy;
                            intros (f & u & H & _); discriminate H].
  destruct user as [userId|]; [| cbn; repeat split; auto; try easy;
                                 intros (f' & u & _ & H & _); discriminate H].
  destruct (ProfileService.profile p) as [pr|] eqn:Hp;
    [| cbn; repeat split; auto; try easy;
       intros (f' & u & _ & _ & H & _); now contradiction H].
  destruct (Js.startsWith (ProfileService.fileType f) "image/") eqn:Hty; cbn [negb].
  2:{ cbn. repeat split; auto; try easy.
      intros (f' & u & [= <-] & _ & _ & H & _). congruence. }
  destruct (ProfileService.maxAvatarSize <? ProfileService.fileSize f)%N eqn:Hsz.
  { cbn. apply N.ltb_lt in Hsz. unfold ProfileService.maxAvatarSize in Hsz.
    repeat split; auto; try easy.
    intros (f' & u & [= <-] & _ & _ & _ & H). lia. }
  apply N.ltb_ge in Hsz. unfold ProfileService.maxAvatarSize in Hsz.
  pose proof (uploadAvatar_calls userId now f b) as Hcalls.
  destruct (ProfileService.uploadAvatar userId now f b) as [[url|err] calls] eqn:Hup;
    cbn [fst snd] in *.
  - unfold ProfileService.updateProfile.
    destruct (ProfileService.dbError (ProfileService.updateAnswer b)) as [e|] eqn:Hdb;
      cbn [fst snd ProfileService.profile ProfileService.isUploadingAvatar
           ProfileService.pageError].
    + split; [split; [intros _; exists f, userId; repeat split; auto; lia
                     | intros _ H; now apply app_eq_nil in H as [? _]] |].
      split; [reflexivity |].
      split; [intros H; now apply app_eq_nil in H as [? _] |].
      now left.
    + split; [split; [intros _; exists f, userId; repeat split; auto; lia
                     | intros _ H; now apply app_eq_nil in H as [? _]] |].
      split; [reflexivity |].
      split; [intros H; now apply app_eq_nil in H as [? _] |].
      right. split; [reflexivity |].
      exists f, userId, url.
      split; [reflexivity |]. split; [reflexivity |].
      split; [now rewrite Hup |]. split; [reflexivity |].
      split; [reflexivity | apply last_snoc].
  - cbn [fst snd ProfileService.profile ProfileService.isUploadingAvatar].
    split; [split; [intros _; exists f, userId; repeat split; auto; lia
                   | intros _; exact Hcalls] |].
    split; [reflexivity |].
    split; [intros H; contradiction | now left].
Qed.

Lemma uploadAvatar_no_bucket_request userId now file b :
  Forall (fun c => c <> ProfileService.ListBuckets /\
                   forall bucket, c <> ProfileService.CreateBucket bucket)
         (snd (ProfileService.uploadAvatar userId now file b)).
Proof.
  unfold ProfileService.uploadAvatar.
  destruct (ProfileService.upload b);
    [| destruct (ProfileService.orNull (ProfileService.publicUrl b))];
    repeat constructor; intros; discriminate.
Qed.

Lemma handleFileChange_no_bucket_request file user now b p :
  Forall (fun c => c <> ProfileService.ListBuckets /\
                   forall bucket, c <> ProfileService.CreateBucket bucket)
         (snd (ProfileService.handleFileChange file user now b p)).
Proof.
  unfold ProfileService.handleFileChange.
  destruct file as [f|]; [| constructor].
  destruct user as [userId|]; [| constructor].
  destruct (ProfileService.profile p); [| constructor].
  destruct (negb _); [constructor |].
  destruct (_ <? _)%N; [constructor |].
  pose proof (uploadAvatar_no_bucket_request userId now f b) as Hup.
  destruct (ProfileService.uploadAvatar userId now f b) as [[url|err] calls];
    cbn [snd] in *; [| exact Hup].
  unfold ProfileService.updateProfile.
  destruct (ProfileService.dbError (ProfileService.updateAnswer b)); cbn [snd];
    (apply Forall_app; split; [exact Hup |]);
    repeat constructor; intros; discriminate.
Qed.

(** X21: [handleFileChange] of the profile page.  Nothing is sent to the
    backend unless a file, a user and a loaded profile are there and the file
    has an image type and at most 5 * 1024 * 1024 bytes (that size itself is
    accepted); whenever something was sent the uploading flag is off at the
    end, on success and on failure; the profile is replaced only when both the upload
    and the row update succeeded, in which case no error is shown; and the
    page never has the buckets listed or a bucket created, so a backend that
    refuses to create buckets does not stand in the way of the upload. *)
Theorem handleFileChange_gate
        (file : option ProfileService.File) (user : option string) (now : N)
        (b : ProfileService.Backend) (p : ProfileService.Page) :
  let p' := fst (ProfileService.handleFileChange file user now b p) in
  let calls := snd (ProfileService.handleFileChange file user now b p) in
  (calls <> [] <->
   exists f userId,
     file = Some f /\ user = Some userId /\ ProfileService.profile p <> None /\
     Js.startsWith (ProfileService.fileType f) "image/" = true /\
     (ProfileService.fileSize f <= 5242880)%N) /\
  (calls <> [] -> ProfileService.isUploadingAvatar p' = false) /\
  (calls = [] -> ProfileService.profile p' = ProfileService.profile p /\
                 ProfileService.isUploadingAvatar p'
                 = ProfileService.isUploadingAvatar p) /\
  (ProfileService.profile p' = ProfileService.profile p \/
   ProfileService.pageError p' = None /\
   exists f userId url,
     file = Some f /\ user = Some userId /\
     ProfileService.upload b = None /\
     ProfileService.publicUrl b = Some url /\ url <> EmptyString /\
     ProfileService.dbError (ProfileService.updateAnswer b) = None /\
     ProfileService.profile p' = ProfileService.data (ProfileService.updateAnswer b) /\
     calls = [ProfileService.Upload "avatars" (ProfileService.avatarPath userId now f);
              ProfileService.GetPublicUrl "avatars"
                (ProfileService.avatarPath userId now f);
              ProfileService.UpdateRow userId (ProfileService.avatarPatch url)]) /\
  Forall (fun c => c <> ProfileService.ListBuckets /\
                   forall bucket, c <> ProfileService.CreateBucket bucket) calls.
Proof.
  cbn zeta.
  pose proof (handleFileChange_outcomes file user now b p) as H. cbn zeta in H.
  destruct H as (HA & HB & HC & HD).
  split; [exact HA |]. split; [exact HB |]. split; [exact HC |].
  split; [| apply handleFileChange_no_bucket_request].
  destruct HD as [HD | (Herr & f & userId & url & -> & -> & Hup & Hdb & Hp & Hlast)];
    [now left | right].
  split; [exact Herr |].
  exists f, userId, url.
  split; [reflexivity |]. split; [reflexivity |].
  revert Hup Hp Hlast. unfold ProfileService.handleFileChange.
  destruct (ProfileService.profile p); [| intros; discriminate].
  unfold ProfileService.uploadAvatar.
  destruct (negb _); [intros; discriminate |].
  destruct (_ <? _)%N; [intros; discriminate |].
  destruct (ProfileService.upload b) as [um|]; [intros H; discriminate H |].
  destruct (ProfileService.publicUrl b) as [[|ch0 rest0]|]; cbn;
    try (intros H; discriminate H).
  intros [= <-]. unfold ProfileService.updateProfile. rewrite Hdb. cbn.
  intros Hp _.
  split; [reflexivity |]. split; [reflexivity |]. split; [discriminate |].
  repeat split.
Qed.

(** A file of exactly 5 * 1024 * 1024 bytes passes the size test. *)
Lemma handleFileChange_gate_witness :
  snd (ProfileService.handleFileChange
         (Some {| ProfileService.fileName := "me.png";
                  ProfileService.fileType := "image/png";
                  ProfileService.fileSize := 5242880 |})
         (Some "user-123") 1718000000000
         {| ProfileService.listBuckets := None;
            ProfileService.createBucket := Some "not allowed";
            ProfileService.upload := None;
            ProfileService.publicUrl := Some "https://cdn/avatars/me.png";
            ProfileService.updateAnswer :=
              {| ProfileService.data := None; ProfileService.dbError := None |} |}
         {| ProfileService.profile :=
              Some {| ProfileService.id := "user-123";
                      ProfileService.username := None;
                      ProfileService.full_name := None;
                      ProfileService.bio := None;
                      ProfileService.avatar_url := None;
                      ProfileService.is_public_profile := true;
                      ProfileService.created_at := "2025-06-09";
                      ProfileService.updated_at := "2025-06-09" |};
            ProfileService.isUploadingAvatar := false;
            ProfileService.pageError := None |})
  <> [].
Proof.
  apply (proj2 (proj1 (handleFileChange_gate _ _ _ _ _))).
  eexists _, _. repeat split; [discriminate | vm_compute; discriminate].
Defined.

(** ** What the other actions leave alone *)

Lemma exec_keeps_transcript isSupported w a :
  rewritesTranscript a = false ->
  transcript (state (exec isSupported w a)) = transcript (state w) /\
  confidence (state (exec isSupported w a)) = confidence (state w).
Proof.
  intros Ha. rewrite exec_eq. destruct a as [| env | | | h ev]; try discriminate Ha.
  - destruct isSupported; auto.
  - destruct (pendingStarts w); [auto |].
    unfold settledWorld. cbn. destruct (startFailure env); auto.
  - cbn. destruct (recognitionRef w); auto.
  - unfold deliver. destruct (recognitions w !! h); [| auto].
    destruct ev; try discriminate Ha; auto.
Qed.

(** X22: the transcript and the confidence are changed by result events and
    by [resetTranscript] only: stopping, a recognition error, the end of a
    session and starting a new one (granted or refused) all leave the text
    and the confidence of the previous session in place. *)
Theorem transcript_survives
        (isSupported : bool) (w : World) (actions : list Action) :
  Forall (fun a => rewritesTranscript a = false) actions ->
  transcript (state (run isSupported w actions)) = transcript (state w) /\
  confidence (state (run isSupported w actions)) = confidence (state w).
Proof.
  intros Hall. revert w. induction Hall as [|a actions Ha _ IH]; intros w; [auto |].
  change (run isSupported w (a :: actions))
    with (run isSupported (exec isSupported w a) actions).
  destruct (IH (exec isSupported w a)) as [-> ->].
  now apply exec_keeps_transcript.
Qed.

(** After a dictated sentence: stop, restart, [onstart]; the sentence stays. *)
Lemma transcript_survives_witness :
  let w := run true listeningWorld [Deliver 0 (OnResult firstEvent)] in
  transcript (state (run true w [CallStop; CallStart; Settle envGranted;
                                 Deliver 1 OnStart]))
  = transcript (state w) /\
  confidence (state (run true w [CallStop; CallStart; Settle envGranted;
                                 Deliver 1 OnStart]))
  = confidence (state w).
Proof.
  apply (transcript_survives true
           (run true listeningWorld [Deliver 0 (OnResult firstEvent)])
           [CallStop; CallStart; Settle envGranted; Deliver 1 OnStart]).
  repeat constructor.
Defined.

Lemma exec_keeps_pending isSupported w a :
  isSettle a = false ->
  pendingStarts w <= pendingStarts (exec isSupported w a).
Proof.
  intros Ha. rewrite exec_eq. destruct a as [| env | | | h ev]; try discriminate Ha.
  - destruct isSupported; cbn; lia.
  - cbn. destruct (recognitionRef w); cbn; lia.
  - cbn. lia.
  - destruct (deliver_frame h ev w) as (_ & _ & _ & ->). lia.
Qed.

Lemma run_keeps_pending isSupported actions : forall w,
  Forall (fun a => isSettle a = false) actions ->
  pendingStarts w <= pendingStarts (run isSupported w actions).
Proof.
  induction actions as [|a actions IH]; intros w Hall; [cbn; lia |].
  inversion Hall as [|? ? Ha Hrest]; subst.
  change (run isSupported w (a :: actions))
    with (run isSupported (exec isSupported w a) actions).
  pose proof (exec_keeps_pending isSupported w a Ha).
  pose proof (IH (exec isSupported w a) Hrest). lia.
Qed.

(** X23: a [startListening] call that is waiting for the permission cannot
    be cancelled.  In a supported environment, whatever is called and
    whatever events arrive between the call and the settling of its
    permission request ([stopListening] included), a granted request with a
    starting engine constructs a new recognition object, starts it and
    stores it as the current one. *)
Theorem pending_start_not_cancelled
        (w : World) (between : list Action) (env : Env) :
  Forall (fun a => isSettle a = false) between ->
  startFailure env = None ->
  let w1 := run true w (CallStart :: between) in
  let w2 := exec true w1 (Settle env) in
  recognitions w2
  = (recognitions w1 ++ [markStarted (configure defaultRecognition)])%list /\
  recognitionRef w2 = Some (length (recognitions w1)) /\
  state w2 = state w1.
Proof.
  intros Hall Hok. cbn zeta.
  change (run true w (CallStart :: between))
    with (run true (exec true w CallStart) between).
  assert (Hp : 0 < pendingStarts (run true (exec true w CallStart) between)).
  { pose proof (run_keeps_pending true between (exec true w CallStart) Hall) as Hp.
    assert (H0 : pendingStarts (exec true w CallStart) = S (pendingStarts w))
      by now rewrite exec_eq.
    rewrite H0 in Hp. lia. }
  rewrite (exec_eq true _ (Settle env)).
  destruct (pendingStarts (run true (exec true w CallStart) between)); [lia |].
  rewrite (settledWorld_success env _ Hok). repeat split.
Qed.

(** Start, stop before the permission prompt is answered, then grant. *)
Lemma pending_start_not_cancelled_witness :
  recognitionRef (run true initialWorld [CallStart; CallStop; Settle envGranted])
  = Some 0.
Proof.
  pose proof (pending_start_not_cancelled initialWorld [CallStop] envGranted
                ltac:(repeat constructor) eq_refl) as (_ & H & _).
  exact H.
Defined.

(** ** The other revision of [uploadAvatar] *)

(** X24: the requests of the revision of [uploadAvatar] in
    [src/unnamed/part_000].  It always lists the buckets first; it creates the avatars bucket exactly when the listing holds no
    bucket of that name (or is null); it uploads, once and to the computed
    path, exactly when the bucket was there or its creation succeeded; it
    asks for the public URL exactly when the upload succeeded; and it
    returns a URL exactly when all of that succeeded and the URL is not
    empty.  Every failure leaves as a thrown error. *)
Theorem uploadAvatarEnsuringBucket_requests
        (userId : string) (now : N) (file : ProfileService.File)
        (b : ProfileService.Backend) :
  let path := ProfileService.avatarPath userId now file in
  let present :=
    match ProfileService.listBuckets b with
    | Some buckets => existsb (fun name => String.eqb name "avatars") buckets
    | None => false
    end in
  let bucketReady := present || bool_decide (ProfileService.createBucket b = None) in
  let uploaded := bucketReady && bool_decide (ProfileService.upload b = None) in
  let calls := snd (ProfileService.uploadAvatarEnsuringBucket userId now file b) in
  calls
  = ([ProfileService.ListBuckets]
     ++ (if present then [] else [ProfileService.CreateBucket "avatars"])
     ++ (if bucketReady then [ProfileService.Upload "avatars" path] else [])
     ++ (if uploaded then [ProfileService.GetPublicUrl "avatars" path] else []))%list /\
  (forall url,
      fst (ProfileService.uploadAvatarEnsuringBucket userId now file b) = Normal url <->
      uploaded = true /\ ProfileService.publicUrl b = Some url /\ url <> EmptyString).
Proof.
  cbn zeta. unfold ProfileService.uploadAvatarEnsuringBucket.
  set (found := match ProfileService.listBuckets b with
                | Some buckets => List.find (fun name => String.eqb name "avatars") buckets
                | None => None
                end).
  set (present := match ProfileService.listBuckets b with
                  | Some buckets => existsb (fun name => String.eqb name "avatars") buckets
                  | None => false
                  end).
  assert (Hfound : present = match found with Some _ => true | None => false end).
  { subst found present. destruct (ProfileService.listBuckets b) as [bs|]; [| reflexivity].
    induction bs as [|x bs IH]; [reflexivity |]. cbn.
    destruct (String.eqb x "avatars"); [reflexivity | exact IH]. }
  rewrite Hfound. clear Hfound present.
  destruct found as [name|];
    destruct (ProfileService.createBucket b) as [cm|];
    destruct (ProfileService.upload b) as [um|];
    destruct (ProfileService.publicUrl b) as [[|ch url']|];
    cbn; (split; [reflexivity |]); intros url; split;
    try (intros H; discriminate H);
    try (intros [H _]; discriminate H);
    try (intros (_ & H & _); discriminate H);
    try (intros (_ & [= <-] & H); now contradiction H);
    try (intros [= <-]; repeat split; discriminate);
    try (intros (_ & [= <-] & _); reflexivity).
Qed.

(** With the bucket present and everything accepted, the URL is returned. *)
Lemma uploadAvatarEnsuringBucket_requests_witness :
  fst (ProfileService.uploadAvatarEnsuringBucket "user-123" 1718000000000
         {| ProfileService.fileName := "me.png";
            ProfileService.fileType := "image/png";
            ProfileService.fileSize := 1024 |}
         {| ProfileService.listBuckets := Some ["avatars"];
            ProfileService.createBucket := None;
            ProfileService.upload := None;
            ProfileService.publicUrl := Some "https://cdn/avatars/me.png";
            ProfileService.updateAnswer :=
              {| ProfileService.data := None; ProfileService.dbError := None |} |})
  = Normal "https://cdn/avatars/me.png".
Proof.
  apply (proj2 (uploadAvatarEnsuringBucket_requests "user-123" 1718000000000 _ _)).
  repeat split. discriminate.
Defined.
